(** * vocab.py: vocabulary extraction and translation resolution

    A shallow embedding of [src/vocab/vocab.py] and the properties of its
    normalizer, aggregator, cache and resolver.

    Python strings are sequences of Unicode code points: [str := list N].
    Dictionaries whose iteration order is observable ([words_data]) are
    insertion-ordered association lists; dictionaries used only through
    lookup and store (the translation cache) are [gmap]s; sets are [gset]s.
    The character tables of the Python runtime (case mapping, white space,
    digits, word characters) are not part of the repository: they are the
    fields of the class [Unicode], and the few facts about them that the
    proofs use are the classes [CaseLaws] and [NormalizeLaws]; [latin1] is
    the part of the runtime's tables at which the examples are evaluated. *)

From Stdlib Require Import ZArith NArith List Sorted Permutation Ascii String.
From Stdlib Require Import DecimalString.
From stdpp Require Import gmap list sorting.

Local Open Scope N_scope.
#[local] Set Warnings "-register-all".

(** ** Strings *)

Abbreviation char := N (only parsing).
Abbreviation str := (list N) (only parsing).

(** An ASCII literal of the source as a sequence of code points. *)
Fixpoint lit (s : string) : str :=
  match s with
  | EmptyString => []
  | String a r => N_of_ascii a :: lit r
  end.
Arguments lit : simpl never.

(** Python's [itertools.dropwhile] on a list: drop the longest prefix whose
    elements satisfy [p]. *)
Fixpoint dropwhile {A} (p : A → bool) (l : list A) : list A :=
  match l with
  | [] => []
  | x :: r => if p x then dropwhile p r else l
  end.

(** The runtime's character database. *)
Class Unicode := {
  (** [str.isspace] on one character: what [str.strip()] removes *)
  isspace : char → bool;
  (** [str.isdigit] on one character *)
  isdigit : char → bool;
  (** the class [\w] of [re] with [re.UNICODE] *)
  isword : char → bool;
  (** [_PyUnicode_ToLowerFull]: the full lower-case mapping of a character *)
  tolower_full : char → str;
  (** [_PyUnicode_IsCased] *)
  iscased : char → bool;
  (** [_PyUnicode_IsCaseIgnorable] *)
  iscaseignorable : char → bool
}.

Definition SIGMA : char := 0x3A3.
Definition FINAL_SIGMA : char := 0x3C2.
Definition SMALL_SIGMA : char := 0x3C3.

Definition a_uml : char := 0xE4.
Definition o_uml : char := 0xF6.
Definition u_uml : char := 0xFC.
Definition A_uml : char := 0xC4.
Definition O_uml : char := 0xD6.
Definition U_uml : char := 0xDC.
Definition eszett : char := 0xDF.
Definition ESZETT : char := 0x1E9E.

Section Strings.
Context {U : Unicode}.

(** [str.strip()] *)
Definition lstrip (s : str) : str := dropwhile isspace s.
Definition rstrip (s : str) : str := rev (dropwhile isspace (rev s)).
Definition strip (s : str) : str := rstrip (lstrip s).

(** [str.replace(old, new)] for a pattern [old] of one code point, which
    is the shape of every call in [normalize_word]. *)
Definition replace (old : char) (new : str) (s : str) : str :=
  flat_map (fun c => if N.eqb c old then new else [c]) s.

(** [handle_capital_sigma] of the runtime: [before] is the text to the
    left of the sigma, nearest character first; [after] the text to its
    right. *)
Definition handle_capital_sigma (before after : str) : char :=
  let final_sigma :=
    match dropwhile iscaseignorable before with
    | c :: _ => iscased c
    | [] => false
    end in
  let final_sigma :=
    if final_sigma then
      match dropwhile iscaseignorable after with
      | c :: _ => negb (iscased c)
      | [] => true
      end
    else false in
  if final_sigma then FINAL_SIGMA else SMALL_SIGMA.

Definition lower_ucs4 (before : str) (c : char) (after : str) : str :=
  if N.eqb c SIGMA then [handle_capital_sigma before after]
  else tolower_full c.

Fixpoint do_lower (before : str) (s : str) : str :=
  match s with
  | [] => []
  | c :: rest => lower_ucs4 before c rest ++ do_lower (c :: before) rest
  end.

(** [str.lower()] *)
Definition lower (s : str) : str := do_lower [] s.

(** [normalize_word], lines 69-94. *)
Definition normalize_word (word : str) (lang : str) : str :=
  let word := strip word in
  if bool_decide (word = []) then []
  else
    let word :=
      if bool_decide (lang = lit "de") then
        replace eszett (lit "ss")
          (replace U_uml (lit "Ue")
            (replace O_uml (lit "Oe")
              (replace A_uml (lit "Ae")
                (replace u_uml (lit "ue")
                  (replace o_uml (lit "oe")
                    (replace a_uml (lit "ae") word))))))
      else word in
    lower word.

(** [contains_number], lines 97-101. *)
Definition contains_number (word : str) : bool := existsb isdigit word.

(** [tokenize], lines 104-110: [re.findall(r"\b\w+\b", text)] returns the
    maximal runs of word characters, left to right. [cur] is the run
    being read, last character first. *)
Fixpoint tokens_from (cur : str) (text : str) : list str :=
  match text with
  | [] => match cur with [] => [] | _ => [rev cur] end
  | c :: rest =>
      if isword c then tokens_from (c :: cur) rest
      else match cur with
           | [] => tokens_from [] rest
           | _ => rev cur :: tokens_from [] rest
           end
  end.

Definition tokenize (text : str) : list str := tokens_from [] text.
End Strings.

Definition SUPPORTED_LANGS : list str :=
  [lit "de"; lit "en"; lit "pt"; lit "it"; lit "es"].
Definition DEFAULT_LANG : str := lit "de".
Definition TARGET_LANG : str := lit "es".


(** ** Insertion-ordered dictionaries

    A Python [dict] iterates in insertion order, and storing under a key
    that is present keeps the key's position. *)

Definition odict (V : Type) : Type := list (list N * V).

Fixpoint od_get {V} (d : odict V) (k : str) : option V :=
  match d with
  | [] => None
  | (k', v) :: r => if bool_decide (k' = k) then Some v else od_get r k
  end.

Fixpoint od_set {V} (d : odict V) (k : str) (v : V) : odict V :=
  match d with
  | [] => [(k, v)]
  | (k', v') :: r =>
      if bool_decide (k' = k) then (k', v) :: r else (k', v') :: od_set r k v
  end.

Definition od_keys {V} (d : odict V) : list str := map fst d.
Definition od_values {V} (d : odict V) : list V := map snd d.

(** ** Aggregation *)

(** The value stored per normalized key: [{"original": str, "count": int}]. *)
Record entry := Entry { original : str; count : nat }.

(** The result of [load_ignore_words]: [{'normalized': set, 'originals': set}]. *)
Record ignore_dict := IgnoreDict {
  normalized : gset (list N);
  originals : gset (list N)
}.

Section Aggregation.
Context {U : Unicode}.

(** The four [continue] tests of the loop of [count_words], lines 402-415,
    in the order of the source. *)
Definition skipped (lang : str) (ign : ignore_dict) (original : str) : bool :=
  if contains_number original then true
  else
    let norm := normalize_word original lang in
    if bool_decide (norm = []) then true
    else if bool_decide (norm ∈ normalized ign) then true
    else if bool_decide (lower original ∈ originals ign) then true
    else false.

(** One iteration of the loop of [count_words], lines 400-421. *)
Definition count_step (lang : str) (ign : ignore_dict)
    (words_data : odict entry) (original : str) : odict entry :=
  if skipped lang ign original then words_data
  else
    let norm := normalize_word original lang in
    match od_get words_data norm with
    | None => od_set words_data norm (Entry original 1)
    | Some (Entry first_seen n) => od_set words_data norm (Entry first_seen (S n))
    end.

Definition count_tokens (lang : str) (ign : ignore_dict)
    (tokens : list str) : odict entry :=
  fold_left (count_step lang ign) tokens [].

Definition sum_counts (words_data : odict entry) : nat :=
  list_sum (map count (od_values words_data)).

(** [count_words], lines 383-425. *)
Definition count_words (text : str) (lang : str) (ign : ignore_dict)
    : odict entry * nat * nat :=
  let tokens := tokenize text in
  let total_tokens := length tokens in
  let words_data := count_tokens lang ign tokens in
  let considered_tokens := sum_counts words_data in
  (words_data, total_tokens, considered_tokens).
End Aggregation.

(** ** JSON values, the cache file and the providers *)

(** What [json.load] returns. Numbers are kept as integers: the program
    only ever tests a number for being zero. *)
Inductive json :=
| JNull
| JBool (b : bool)
| JNum (n : Z)
| JStr (s : list N)
| JArr (l : list json)
| JObj (d : gmap (list N) json).

(** Python truth value of a JSON value. *)
Definition truthy (v : json) : bool :=
  match v with
  | JNull => false
  | JBool b => b
  | JNum n => negb (Z.eqb n 0)
  | JStr s => negb (bool_decide (s = []))
  | JArr l => match l with [] => false | _ => true end
  | JObj d => negb (bool_decide (d = ∅))
  end.

(** The state of [cache.json] on disk, as far as [load_cache] can tell. *)
Inductive cache_file :=
| FileMissing            (* [cache_path.is_file()] is false *)
| FileUnreadable         (* [open] or the UTF-8 decoding raises *)
| FileInvalidJson        (* [json.load] raises *)
| FileJson (data : json) (* [json.load] returns [data] *).

(** [load_cache], lines 235-255. *)
Definition load_cache (f : cache_file) : gmap (list N) json :=
  match f with
  | FileMissing => ∅
  | FileUnreadable => ∅
  | FileInvalidJson => ∅
  | FileJson (JObj d) => d
  | FileJson _ => ∅
  end.

(** A Python call either returns or raises. *)
Inductive outcome (A : Type) :=
| Return (a : A)
| Raise.
Arguments Return {A} a.
Arguments Raise {A}.

(** The reply of [DEEPL_CLIENT.translate_text]: an exception, or an object
    that has a [text] attribute or not. *)
Inductive deepl_reply :=
| DeeplError
| DeeplResult (text : option (list N)).

(** The reply of [requests.get(...)] followed by [raise_for_status()] and
    [json()]: an exception in any of the three, or the decoded body. *)
Inductive http_reply :=
| HttpError
| HttpJson (js : json).

(** What a run does to its surroundings, in order. *)
Inductive event :=
| EvDeepL (text source target : list N)      (* [translate_with_deepl] called *)
| EvMyMemory (text source target : list N)   (* [translate_with_mymemory] called *)
| EvStore (key : list N) (value : json)      (* [lang_cache[key] = value] *)
| EvLoadCache                                (* [load_cache] called *)
| EvSaveCache (cache : gmap (list N) json)   (* [json.dump] wrote the file *)
| EvSaveWarning                              (* the warning of [save_cache] *).

Definition is_provider_call (e : event) : bool :=
  match e with EvDeepL _ _ _ | EvMyMemory _ _ _ => true | _ => false end.


Definition is_cache_write (e : event) : bool :=
  match e with EvStore _ _ | EvSaveCache _ => true | _ => false end.

(** [save_cache], lines 258-263: [writable] tells whether opening and
    dumping succeed. The function returns in both cases. *)
Definition save_cache (writable : bool) (cache : gmap (list N) json)
    : list event :=
  if writable then [EvSaveCache cache] else [EvSaveWarning].

(** ** Translation resolution *)

Definition SENTINEL : list N := lit "X".
Definition PLACEHOLDER : list N := lit "-".

Section Resolver.
Context {U : Unicode}.

(** The network: a state [W] that every provider call may read and change. *)
Variable W : Type.

(** [DEEPL_CLIENT], lines 57-63: [None] without an API key, otherwise the
    client's [translate_text] applied to a text and the upper-cased source
    and target codes. *)
Variable DEEPL_CLIENT : option (str → str → str → W → deepl_reply * W).

(** The optional [requests] module, lines 40-43: the GET of the MyMemory
    endpoint with parameters [q] and [langpair]. *)
Variable requests : option (str → str → W → http_reply * W).

(** The mutable state of a run: the network, the per-language slice of the
    cache that [get_translation] receives by reference, and the events so
    far (oldest first). *)
Record run_state := RunState {
  world : W;
  lang_cache : gmap (list N) json;
  trace : list event
}.

Definition M (A : Type) : Type := run_state → A * run_state.

#[local] Instance M_ret : MRet M := fun A (a : A) s => (a, s).

#[local] Instance M_bind : MBind M :=
  fun A B (f : A → M B) (m : M A) s => let '(a, s') := m s in f a s'.

Definition log (e : event) : M unit :=
  fun s => (tt, RunState (world s) (lang_cache s) (trace s ++ [e])).

Definition cache_lookup (k : str) : M (option json) :=
  fun s => (lang_cache s !! k, s).

(** [lang_cache[k] = v] *)
Definition cache_store (k : str) (v : json) : M unit :=
  fun s => (tt, RunState (world s) (<[k := v]> (lang_cache s))
                         (trace s ++ [EvStore k v])).

Definition call {A} (f : W → A * W) : M A :=
  fun s => let '(a, w) := f (world s) in
           (a, RunState w (lang_cache s) (trace s)).

(** [translate_with_deepl], lines 269-297. It catches every exception of
    the client, so it always returns. *)
Definition translate_with_deepl (text source_lang target_lang : str)
    : M (outcome (option str)) :=
  match DEEPL_CLIENT with
  | None => mret (Return None)
  | Some translate_text =>
      reply ← call (translate_text text source_lang target_lang);
      match reply with
      | DeeplResult (Some t) => mret (Return (Some (strip t)))
      | DeeplResult None => mret (Return None)
      | DeeplError => mret (Return None)
      end
  end.

(** [translate_with_mymemory], lines 300-314. Nothing is caught here: a
    failing request, a body that is not an object, and a [translatedText]
    that is true but not a string all raise. *)
Definition translate_with_mymemory (text source_lang target_lang : str)
    : M (outcome (option str)) :=
  match requests with
  | None => mret (Return None)
  | Some get =>
      reply ← call (get text (source_lang ++ lit "|" ++ target_lang));
      match reply with
      | HttpError => mret Raise
      | HttpJson (JObj js) =>
          let data :=
            match js !! lit "responseData" with
            | Some v => if truthy v then v else JObj ∅
            | None => JObj ∅
            end in
          match data with
          | JObj data =>
              match data !! lit "translatedText" with
              | Some translated =>
                  if truthy translated then
                    match translated with
                    | JStr t => mret (Return (Some (strip t)))
                    | _ => mret Raise
                    end
                  else mret (Return None)
              | None => mret (Return None)
              end
          | _ => mret Raise
          end
      | HttpJson _ => mret Raise
      end
  end.

(** The test [if result:] on what a provider returned: a non-empty string. *)
Definition usable (r : outcome (option str)) : option str :=
  match r with
  | Return (Some (c :: t)) => Some (c :: t)
  | _ => None
  end.

(** [get_translation], lines 319-377. The [debug] prints are left out. *)
Definition get_translation (norm_key original_word lang : str) : M json :=
  hit ← cache_lookup norm_key;
  match hit with
  | Some v => mret v
  | None =>
      let source_lang := lang in
      let target_lang := TARGET_LANG in
      log (EvDeepL original_word source_lang target_lang) ;;
      r ← translate_with_deepl original_word source_lang target_lang;
      match usable r with
      | Some result => cache_store norm_key (JStr result) ;; mret (JStr result)
      | None =>
          log (EvMyMemory original_word source_lang target_lang) ;;
          r ← translate_with_mymemory original_word source_lang target_lang;
          match usable r with
          | Some result =>
              cache_store norm_key (JStr result) ;; mret (JStr result)
          | None =>
              cache_store norm_key (JStr SENTINEL) ;; mret (JStr SENTINEL)
          end
      end
  end.

(** The loop of [main], lines 684-687, over [words_data.items()]. *)
Fixpoint translate_all (lang : str) (items : odict entry)
    : M (list (str * nat * json)) :=
  match items with
  | [] => mret []
  | (norm, info) :: rest =>
      meaning ← get_translation norm (original info) lang;
      tail ← translate_all lang rest;
      mret ((original info, count info, meaning) :: tail)
  end.

(** ** Output order *)

(** [<] on Python strings: lexicographic on code points. *)
Fixpoint str_lt (a b : str) : bool :=
  match a, b with
  | _, [] => false
  | [], _ :: _ => true
  | x :: a', y :: b' =>
      if N.ltb x y then true
      else if N.eqb x y then str_lt a' b'
      else false
  end.

Definition str_le (a b : str) : bool := negb (str_lt b a).

(** The sort key of line 698: [(-x[1], x[0].lower())]. *)
Definition sort_key (x : str * nat * json) : Z * str :=
  (- Z.of_nat (snd (fst x)), lower (fst (fst x)))%Z.

(** [<] on the key tuples. *)
Definition key_lt (k1 k2 : Z * str) : bool :=
  if Z.ltb (fst k1) (fst k2) then true
  else if Z.eqb (fst k1) (fst k2) then str_lt (snd k1) (snd k2)
  else false.

(** [list.sort(key=...)] is a stable sort that compares keys with [<]
    only: an element moves in front of another one exactly when its key is
    smaller. *)
Fixpoint sort_insert (x : str * nat * json) (l : list (str * nat * json))
    : list (str * nat * json) :=
  match l with
  | [] => [x]
  | y :: r =>
      if key_lt (sort_key y) (sort_key x) then y :: sort_insert x r
      else x :: y :: r
  end.

Fixpoint sort_entries (l : list (str * nat * json))
    : list (str * nat * json) :=
  match l with
  | [] => []
  | x :: r => sort_insert x (sort_entries r)
  end.

(** ** The run *)

(** [key in text] on Python strings: [key] occurs in [text] as a run of
    consecutive characters. *)
Fixpoint startswith (text key : str) : bool :=
  match key, text with
  | [], _ => true
  | _ :: _, [] => false
  | x :: key', y :: text' => N.eqb x y && startswith text' key'
  end.

Fixpoint str_contains (text key : str) : bool :=
  startswith text key ||
  match text with
  | [] => false
  | _ :: text' => str_contains text' key
  end.

(** [norm_key in lang_cache], line 331, on whatever [json.load] may have
    put under the language: the key test on a dictionary, the substring
    test on a string, the search for an equal element in a list, and a
    [TypeError] ([None]) on [null], a boolean or a number. *)
Definition slice_contains (lang_cache : json) (norm_key : str) : option bool :=
  match lang_cache with
  | JObj d => Some (bool_decide (is_Some (d !! norm_key)))
  | JStr text => Some (str_contains text norm_key)
  | JArr l =>
      Some (existsb (fun e => match e with
                              | JStr s => bool_decide (s = norm_key)
                              | _ => false
                              end) l)
  | JNull | JBool _ | JNum _ => None
  end.

(** [get_translation], lines 319-377, on a [lang_cache] that is a string
    or a list without the key. Both providers are asked: the assignment
    [lang_cache[norm_key] = result] of lines 346 and 362 raises a
    [TypeError] inside the [try], which the [except] swallows, and the one
    of line 376 raises it outside of any [try]. *)
Definition ask_both (original_word lang : str) : M unit :=
  log (EvDeepL original_word lang TARGET_LANG) ;;
  translate_with_deepl original_word lang TARGET_LANG ;;
  log (EvMyMemory original_word lang TARGET_LANG) ;;
  translate_with_mymemory original_word lang TARGET_LANG ;;
  mret tt.

(** The first turn of the loop of lines 684-687 when [cache[lang]] is not
    a dictionary: the network and the events at the moment the [TypeError]
    leaves [get_translation]. The test of line 331 raises on [null], a
    boolean or a number; [lang_cache[norm_key]] of line 334 raises when the
    test was true; otherwise the providers are asked first. *)
Definition first_turn_fails (lang_cache : json) (lang : str)
    (words_data : odict entry) (w : W) : W * list event :=
  match words_data with
  | (norm, info) :: _ =>
      match slice_contains lang_cache norm with
      | Some false =>
          let '(_, s) := ask_both (original info) lang
                           (RunState w ∅ [EvLoadCache]) in
          (world s, trace s)
      | _ => (w, [EvLoadCache])
      end
  | [] => (w, [EvLoadCache]) (* no turn: [main] has returned at line 667 *)
  end.

Inductive main_result :=
| NothingToShow     (* line 667: no word left, [main] returns *)
| UncaughtTypeError (* [cache[lang]] is not a dictionary and is used *)
| Shown (entries : list (str * nat * json)) (total_tokens considered_tokens : nat).

(** [main], lines 645-712, from the counted text to the call of
    [format_table] at line 702: [Shown] carries the sorted list that
    [format_table] and the savers receive, and says nothing of what they do
    with it. The arguments are what [parse_args], [read_text_from_inputs]
    and [load_ignore_words] produced, the state of the cache file, whether
    it can be written, and the network. The module [tqdm] of line 683 is
    taken to be installed.

    When [cache[lang]] was loaded as something that is not a dictionary,
    the first [get_translation] ends in an uncaught [TypeError]. *)
Definition main (lang : str) (no_translate : bool) (text : str)
    (ignore : ignore_dict) (disk : cache_file) (writable : bool) (w : W)
    : main_result * W * list event :=
  let no_translate_mode := no_translate || bool_decide (lang = lit "es") in
  let '(words_data, total_tokens, considered_tokens) :=
    count_words text lang ignore in
  match words_data with
  | [] => (NothingToShow, w, [])
  | _ =>
      let cache := load_cache disk in
      let cache :=
        match cache !! lang with
        | None => <[lang := JObj ∅]> cache
        | Some _ => cache
        end in
      if no_translate_mode then
        let entries :=
          map (fun '(norm, info) =>
                 (original info, count info, JStr PLACEHOLDER)) words_data in
        (Shown (sort_entries entries) total_tokens considered_tokens,
         w, [EvLoadCache])
      else
        match cache !! lang with
        | Some (JObj d) =>
            let '(entries, s) :=
              translate_all lang words_data (RunState w d [EvLoadCache]) in
            let cache := <[lang := JObj (lang_cache s)]> cache in
            (Shown (sort_entries entries) total_tokens considered_tokens,
             world s, trace s ++ save_cache writable cache)
        | Some lang_cache =>
            let failed := first_turn_fails lang_cache lang words_data w in
            (UncaughtTypeError, fst failed, snd failed)
        | None => (* not reached: line 673 has put [lang] in [cache] *)
            (UncaughtTypeError, w, [EvLoadCache])
        end
  end.
End Resolver.

Arguments RunState {W} _ _ _.
Arguments world {W} _.
Arguments lang_cache {W} _.
Arguments trace {W} _.
Arguments translate_with_deepl {U W} _ _ _ _ _.
Arguments translate_with_mymemory {U W} _ _ _ _ _.
Arguments get_translation {U W} _ _ _ _ _ _.
Arguments translate_all {U W} _ _ _ _ _.
Arguments ask_both {U W} _ _ _ _ _.
Arguments first_turn_fails {U W} _ _ _ _ _ _.
Arguments main {U W} _ _ _ _ _ _ _ _ _.

(** ** A concrete character database

    The rows U+0000 to U+00FF of the runtime's tables (Basic Latin and
    Latin-1 Supplement), and the rows of the six characters U+0130, U+0307,
    U+03A3, U+03C2, U+03C3 and U+1E9E. Every other character is left
    caseless. It is the database at which the examples are evaluated. *)

Definition between (lo hi c : N) : bool := (lo <=? c) && (c <=? hi).

Definition latin1_isspace (c : N) : bool :=
  between 0x09 0x0D c || between 0x1C 0x20 c || (c =? 0x85) || (c =? 0xA0).

Definition latin1_isdigit (c : N) : bool :=
  between 0x30 0x39 c || between 0xB2 0xB3 c || (c =? 0xB9).

Definition latin1_iscased (c : N) : bool :=
  between 0x41 0x5A c || between 0x61 0x7A c || (c =? 0xAA) || (c =? 0xB5)
  || (c =? 0xBA) || between 0xC0 0xD6 c || between 0xD8 0xF6 c
  || between 0xF8 0xFF c
  || (c =? 0x130) || (c =? SIGMA) || (c =? FINAL_SIGMA) || (c =? SMALL_SIGMA)
  || (c =? ESZETT).

Definition latin1_isword (c : N) : bool :=
  between 0x30 0x39 c || (c =? 0x5F) || between 0xB2 0xB3 c || (c =? 0xB9)
  || between 0xBC 0xBE c || latin1_iscased c.

Definition latin1_iscaseignorable (c : N) : bool :=
  (c =? 0x27) || (c =? 0x2E) || (c =? 0x3A) || (c =? 0x5E) || (c =? 0x60)
  || (c =? 0xA8) || (c =? 0xAD) || (c =? 0xAF) || (c =? 0xB4)
  || between 0xB7 0xB8 c || (c =? 0x307).

Definition latin1_tolower_full (c : N) : list N :=
  if between 0x41 0x5A c then [c + 32]
  else if between 0xC0 0xD6 c || between 0xD8 0xDE c then [c + 32]
  else if c =? 0x130 then [0x69; 0x307]
  else if c =? SIGMA then [SMALL_SIGMA]
  else if c =? ESZETT then [eszett]
  else [c].

Definition latin1 : Unicode := {|
  isspace := latin1_isspace;
  isdigit := latin1_isdigit;
  isword := latin1_isword;
  tolower_full := latin1_tolower_full;
  iscased := latin1_iscased;
  iscaseignorable := latin1_iscaseignorable
|}.

Definition no_ignore : ignore_dict := IgnoreDict ∅ ∅.

(** "Maßstäbe" *)
Definition Massstaebe : list N :=
  lit "Ma" ++ [eszett] ++ lit "st" ++ [a_uml] ++ lit "be".

(** ** Facts about the character database that the proofs rely on *)

(** Lower-casing yields lower-case characters: every character of a full
    lower-case mapping is its own lower case and is not the capital sigma,
    and so are the two small sigmas that replace a capital one. *)
Class CaseLaws (U : Unicode) : Prop := {
  final_sigma_fixed : tolower_full FINAL_SIGMA = [FINAL_SIGMA];
  small_sigma_fixed : tolower_full SMALL_SIGMA = [SMALL_SIGMA];
  tolower_stable : ∀ c d, In d (tolower_full c) →
    d ≠ SIGMA ∧ tolower_full d = [d]
}.

(** White space and the German letters under lower-casing: a character that
    is not white space has a lower-case form without white space; the
    letters that the table writes are not white space; the only characters
    whose lower-case form holds an umlaut or a sharp s are these letters,
    their capitals and the capital sharp s; the capital umlauts are not
    their own lower case. *)
Class NormalizeLaws (U : Unicode) : Prop := {
  tolower_nonempty : ∀ c, tolower_full c ≠ [];
  tolower_nonspace : ∀ c d,
    isspace c = false → In d (tolower_full c) → isspace d = false;
  sigma_nonspace : isspace FINAL_SIGMA = false ∧ isspace SMALL_SIGMA = false;
  letters_nonspace : ∀ c, In c (lit "aeousAOU") → isspace c = false;
  tolower_into_table : ∀ c d,
    In d (tolower_full c) → In d [a_uml; o_uml; u_uml; eszett] →
    In c [a_uml; A_uml; o_uml; O_uml; u_uml; U_uml; eszett; ESZETT];
  capitals_change :
    tolower_full A_uml ≠ [A_uml] ∧ tolower_full O_uml ≠ [O_uml]
    ∧ tolower_full U_uml ≠ [U_uml]
}.

(** A string that [strip] leaves alone: neither end is white space. *)
Definition ends_ok {U : Unicode} (s : str) : Prop :=
  (∀ c t, s = c :: t → isspace c = false)
  ∧ (∀ c t, s = t ++ [c] → isspace c = false).

(** A string on which [str.lower()] has nothing to do. *)
Definition lowercase {U : Unicode} (s : str) : Prop :=
  Forall (fun d => d ≠ SIGMA ∧ tolower_full d = [d]) s.

(** The substitution table of [normalize_word] for German, as one pass
    over the characters. *)
Definition de_table : list (N * list N) :=
  [(a_uml, lit "ae"); (o_uml, lit "oe"); (u_uml, lit "ue");
   (A_uml, lit "Ae"); (O_uml, lit "Oe"); (U_uml, lit "Ue");
   (eszett, lit "ss")].

Fixpoint assoc (t : list (N * list N)) (c : N) : option (list N) :=
  match t with
  | [] => None
  | (k, v) :: r => if N.eqb c k then Some v else assoc r c
  end.

Definition de_subst (c : N) : list N :=
  match assoc de_table c with Some v => v | None => [c] end.

(** A string rewritten character by character, [outs] being what each
    character becomes: never nothing, and no white space for a character
    that is not white space. *)
Definition expands {U : Unicode} (s : str) (outs : list str) : Prop :=
  Forall2 (fun c out =>
             out ≠ []
             ∧ (isspace c = false → Forall (fun d => isspace d = false) out))
          s outs.

(** A string that the German table leaves alone. *)
Definition de_free (s : str) : Prop :=
  Forall (fun c => assoc de_table c = None) s.

(** ** Vocabulary of the statements *)

(** The seven calls of [replace] in a row, in the order of the source. *)
Definition de_replace (word : str) : str :=
  replace eszett (lit "ss")
    (replace U_uml (lit "Ue")
      (replace O_uml (lit "Oe")
        (replace A_uml (lit "Ae")
          (replace u_uml (lit "ue")
            (replace o_uml (lit "oe")
              (replace a_uml (lit "ae") word)))))).

(** The tokens that reach the dictionary under the key [k]. *)
Definition retained_as {U : Unicode} (lang : str) (ign : ignore_dict)
    (k : str) (t : str) : bool :=
  negb (skipped lang ign t) && bool_decide (normalize_word t lang = k).

(** What the dictionary holds for [k] once the tokens [seen] are read. *)
Definition entry_of {U : Unicode} (lang : str) (ign : ignore_dict)
    (k : str) (seen : list str) : option entry :=
  match List.filter (retained_as lang ign k) seen with
  | [] => None
  | first :: more => Some (Entry first (S (length more)))
  end.

Definition tracks {U : Unicode} (lang : str) (ign : ignore_dict)
    (seen : list str) (words_data : odict entry) : Prop :=
  ∀ k, od_get words_data k = entry_of lang ign k seen.

(** What a provider function answers in the network state [w], and the
    network state it leaves. *)
Definition provider_run {W : Type} (p : M W (outcome (option str))) (w : W)
    : outcome (option str) * W :=
  let '(o, s) := p (RunState w ∅ []) in (o, world s).

Definition framed {W : Type} (o : outcome (option str) * W) (s : run_state W)
    : outcome (option str) * run_state W :=
  (fst o, RunState (snd o) (lang_cache s) (trace s)).

(** Steps 2 to 4 of the chain, for a key that is not in the cache. *)
Definition chain_result {U : Unicode} {W : Type}
    (DEEPL_CLIENT : option (str → str → str → W → deepl_reply * W))
    (requests : option (str → str → W → http_reply * W))
    (k ow lang : str) (s : run_state W) : json * run_state W :=
  let ev1 := EvDeepL ow lang TARGET_LANG in
  let ev2 := EvMyMemory ow lang TARGET_LANG in
  let '(o1, w1) :=
    provider_run (translate_with_deepl DEEPL_CLIENT ow lang TARGET_LANG)
      (world s) in
  match usable o1 with
  | Some r =>
      (JStr r, RunState w1 (<[k := JStr r]> (lang_cache s))
                 (trace s ++ [ev1; EvStore k (JStr r)]))
  | None =>
      let '(o2, w2) :=
        provider_run (translate_with_mymemory requests ow lang TARGET_LANG)
          w1 in
      match usable o2 with
      | Some r =>
          (JStr r, RunState w2 (<[k := JStr r]> (lang_cache s))
                     (trace s ++ [ev1; ev2; EvStore k (JStr r)]))
      | None =>
          (JStr SENTINEL,
           RunState w2 (<[k := JStr SENTINEL]> (lang_cache s))
             (trace s ++ [ev1; ev2; EvStore k (JStr SENTINEL)]))
      end
  end.

(** [x] may stand in front of [y]: the key of [y] is not smaller. *)
Definition in_order {U : Unicode} (x y : str * nat * json) : Prop :=
  key_lt (sort_key y) (sort_key x) = false.

(** The pair (spelling, count) of an output triple and of a dictionary item. *)
Definition shown_pair (x : str * nat * json) : str * nat :=
  (fst (fst x), snd (fst x)).
Definition item_pair (kv : str * entry) : str * nat :=
  (original (snd kv), count (snd kv)).

(** ** Sample inputs *)

(** "Straße STRAẞE" *)
Definition Strasse_twice : list N :=
  lit "Stra" ++ [eszett] ++ lit "e STRA" ++ [ESZETT] ++ lit "E".

(** An ignore file with the one line "der". *)
Definition ignore_der : ignore_dict := IgnoreDict ∅ {[ lit "der" ]}.

(** A DeepL client that raises, and a MyMemory that answers " perro ". *)
Definition failing_deepl
    : option (list N → list N → list N → unit → deepl_reply * unit) :=
  Some (fun _ _ _ w => (DeeplError, w)).

Definition perro_body : json :=
  JObj {[ lit "responseData" :=
            JObj {[ lit "translatedText" := JStr (lit " perro ") ]} ]}.

Definition perro_mymemory
    : option (list N → list N → unit → http_reply * unit) :=
  Some (fun _ _ w => (HttpJson perro_body, w)).

Definition offline : option (list N → list N → unit → http_reply * unit) :=
  Some (fun _ _ w => (HttpError, w)).

Definition fresh_state : run_state unit := RunState tt ∅ [].

(** A cache file [{"de": 5}]: an object whose value for German is not one,
    and the same number as the whole file. *)
Definition number_slice : gmap (list N) json := {[ lit "de" := JNum 5 ]}.

Definition number_slice_file : cache_file := FileJson (JObj number_slice).

Definition number_file : cache_file := FileJson (JNum 5).

(** ** Vocabulary of the further statements *)

Definition is_deepl_call (e : event) : bool :=
  match e with EvDeepL _ _ _ => true | _ => false end.

Definition is_mymemory_call (e : event) : bool :=
  match e with EvMyMemory _ _ _ => true | _ => false end.

(** The dictionary that [main] uses as [lang_cache] when it translates:
    what the file holds for the language, or a fresh one (lines 671-674). *)
Definition loaded_slice (disk : cache_file) (lang : str) : gmap (list N) json :=
  match load_cache disk !! lang with
  | Some (JObj d) => d
  | _ => ∅
  end.

(** The DeepL calls that a loop over [items] makes from the cache [d]: one
    for each item whose key is not in [d]. *)
Definition expected_deepl_calls (lang : str) (d : gmap (list N) json)
    (items : odict entry) : list event :=
  map (fun kv => EvDeepL (original (snd kv)) lang TARGET_LANG)
      (List.filter (fun kv => bool_decide (d !! fst kv = None)) items).

(** What [translate_with_mymemory] makes of the reply to its request. *)
Definition mymemory_decode {U : Unicode} (reply : http_reply)
    : outcome (option str) :=
  match reply with
  | HttpError => Raise
  | HttpJson (JObj js) =>
      match (match js !! lit "responseData" with
             | Some v => if truthy v then v else JObj ∅
             | None => JObj ∅
             end) with
      | JObj data =>
          match data !! lit "translatedText" with
          | Some (JStr t) => if truthy (JStr t) then Return (Some (strip t))
                             else Return None
          | Some translated => if truthy translated then Raise else Return None
          | None => Return None
          end
      | _ => Raise
      end
  | HttpJson _ => Raise
  end.

(** A per-language cache with one entry, and a state that holds it. *)
Definition hund_cache : gmap (list N) json :=
  {[ lit "hund" := JStr (lit "perro") ]}.

Definition hund_state : run_state unit := RunState tt hund_cache [].

(** The cache file after "Hund" has been translated from German. *)
Definition hund_file : cache_file :=
  FileJson (JObj {[ lit "de" := JObj hund_cache ]}).


(** ** Reading the inputs and the ignore file *)

(** A path as the program sees it. [Path.is_file()] answers for most
    paths, and raises the [OSError] of [stat] for the others (a name that is
    too long, a directory that may not be searched) on the interpreters
    that let it through. What it calls a file may still refuse to be opened
    or read ([PermissionError], an input error), hold bytes that are not
    UTF-8, or give its decoded text (line ends as "\n"). *)
Inductive file :=
| NotAFile               (* [is_file()] is false *)
| StatFails              (* [is_file()] raises [OSError] *)
| Unreadable             (* a file; [open] or the reading raises [OSError] *)
| Undecodable            (* a file; the reading raises [UnicodeDecodeError] *)
| Content (text : list N).

(** [Path(p).is_file()] *)
Definition is_file (f : file) : outcome bool :=
  match f with
  | StatFails => Raise
  | NotAFile => Return false
  | Unreadable | Undecodable | Content _ => Return true
  end.

(** A function returns, ends the process with [sys.exit(code)], or lets an
    exception escape that nothing in the program catches (an [OSError] of
    the file system, a [UnicodeDecodeError] of standard input): the process
    ends with a traceback. *)
Inductive result (A : Type) :=
| Ok (a : A)
| SysExit (code : nat)
| Uncaught.
Arguments Ok {A} a.
Arguments SysExit {A} code.
Arguments Uncaught {A}.

(** Opening a path and reading it as UTF-8 inside the [try] that both
    readers put around it (lines 139-143 and 211-224): the handler of
    [UnicodeDecodeError] prints a message and calls [sys.exit(1)]; an
    [OSError] is not handled. Opening what is not a file raises one
    ([FileNotFoundError], [IsADirectoryError]). *)
Definition read_utf8 (f : file) : result str :=
  match f with
  | Content text => Ok text
  | Undecodable => SysExit 1
  | Unreadable | StatFails | NotAFile => Uncaught
  end.

Definition NEWLINE : N := 10.
Definition SPACE : N := 32.

(** The lines that iterating over an open text file yields: each one ends
    with its "\n", except maybe the last. [cur] is the line being read,
    last character first. *)
Fixpoint lines_from (cur : str) (text : str) : list str :=
  match text with
  | [] => match cur with [] => [] | _ => [rev cur] end
  | c :: rest =>
      if N.eqb c NEWLINE then rev (c :: cur) :: lines_from [] rest
      else lines_from (c :: cur) rest
  end.

Definition file_lines (text : str) : list str := lines_from [] text.

(** [sep.join(chunks)] *)
Fixpoint join (sep : str) (chunks : list str) : str :=
  match chunks with
  | [] => []
  | [c] => c
  | c :: rest => c ++ sep ++ join sep rest
  end.

Definition MAX_LITERAL_LEN : nat := 800.

Section Inputs.
Context {U : Unicode}.

(** The file system: what is at a path. *)
Variable fs : str → file.

(** The body of the loop of [load_ignore_words], lines 213-221, for one
    line of the file. *)
Definition ignore_line (lang : str) (acc : ignore_dict) (line : str)
    : ignore_dict :=
  let w := strip line in
  if bool_decide (w = []) then acc
  else
    let ignore_originals := {[ lower w ]} ∪ originals acc in
    let norm := normalize_word w lang in
    if bool_decide (norm = []) then IgnoreDict (normalized acc) ignore_originals
    else IgnoreDict ({[ norm ]} ∪ normalized acc) ignore_originals.

(** The loop over [paths_to_use], lines 210-224. *)
Fixpoint ignore_files (lang : str) (paths : list str) (acc : ignore_dict)
    : result ignore_dict :=
  match paths with
  | [] => Ok acc
  | p :: rest =>
      match read_utf8 (fs p) with
      | Ok text =>
          ignore_files lang rest
            (fold_left (ignore_line lang) (file_lines text) acc)
      | SysExit code => SysExit code
      | Uncaught => Uncaught
      end
  end.

(** [load_ignore_words], lines 175-229. [default_path] is
    [script_dir / DEFAULT_IGNORE_FILENAME]; [exclude_path] is the value of
    [--exclude], [None] when the option is absent. *)
Definition load_ignore_words (default_path : str) (exclude_path : option str)
    (lang : str) : result ignore_dict :=
  let empty := IgnoreDict ∅ ∅ in
  match exclude_path with
  | Some (c :: p) =>
      match is_file (fs (c :: p)) with
      | Raise => Uncaught
      | Return false => SysExit 1
      | Return true => ignore_files lang [c :: p] empty
      end
  | _ =>
      match is_file (fs default_path) with
      | Raise => Uncaught
      | Return true => ignore_files lang [default_path] empty
      | Return false => ignore_files lang [] empty
      end
  end.

(** The test of lines 125-127: the item is taken as literal text without
    looking at the file system. *)
Definition literal_looking (item : str) : bool :=
  existsb (N.eqb SPACE) item || Nat.ltb 200 (length item).

(** The loop of [read_text_from_inputs], lines 123-151. *)
Fixpoint read_items (inputs : list str) (text_chunks : list str)
    : result (list str) :=
  match inputs with
  | [] => Ok text_chunks
  | item :: rest =>
      if literal_looking item then
        if Nat.ltb MAX_LITERAL_LEN (length item) then SysExit 1
        else read_items rest (text_chunks ++ [item])
      else
        match is_file (fs item) with
        | Raise => Uncaught
        | Return true =>
            match read_utf8 (fs item) with
            | Ok text => read_items rest (text_chunks ++ [text])
            | SysExit code => SysExit code
            | Uncaught => Uncaught
            end
        | Return false =>
            if Nat.ltb MAX_LITERAL_LEN (length item) then SysExit 1
            else read_items rest (text_chunks ++ [item])
        end
  end.

(** Standard input: a terminal, a stream with its whole content, or a
    stream whose bytes [sys.stdin.read()] cannot decode. *)
Inductive stdin :=
| Tty
| Piped (data : list N)
| Garbled.

(** [read_text_from_inputs], lines 113-168. Its parameter [lang] is not
    used by the source and is left out. *)
Definition read_text_from_inputs (inputs : list str) (input : stdin)
    : result str :=
  match inputs with
  | _ :: _ =>
      match read_items inputs [] with
      | Ok text_chunks => Ok (join [NEWLINE] text_chunks)
      | SysExit code => SysExit code
      | Uncaught => Uncaught
      end
  | [] =>
      match input with
      | Piped data =>
          if bool_decide (strip data = []) then SysExit 1
          else Ok (join [NEWLINE] [data])
      | Garbled => Uncaught
      | Tty => SysExit 1
      end
  end.

(** The lines of the ignore file that a run uses: those of the file named
    by [--exclude], else those of the default file, else none. *)
Definition ignore_lines (default_path : str) (exclude_path : option str)
    : list str :=
  let lines_at p :=
    match fs p with Content text => file_lines text | _ => [] end in
  match exclude_path with
  | Some (c :: p) => lines_at (c :: p)
  | _ => lines_at default_path
  end.

(** What an input item contributes to the text. *)
Definition chunk_of (item : str) : str :=
  if literal_looking item then item
  else match fs item with Content text => text | _ => item end.

(** An input item at which the process ends with status 1: literal text
    of more than 800 characters, or a file that is not UTF-8. *)
Definition bad_item (item : str) : bool :=
  if literal_looking item then Nat.ltb MAX_LITERAL_LEN (length item)
  else match fs item with Undecodable => true | _ => false end.

(** An input item at which an [OSError] escapes: a path that [is_file()]
    cannot examine, or a file that cannot be read. *)
Definition raising_item (item : str) : bool :=
  if literal_looking item then false
  else match fs item with StatFails | Unreadable => true | _ => false end.

(** The path that [load_ignore_words] examines: the one given with
    [--exclude], or the default one when none (or an empty one) is given. *)
Definition ignore_path (default_path : str) (exclude_path : option str) : str :=
  match exclude_path with
  | Some (c :: p) => c :: p
  | _ => default_path
  end.

(** The beginning of [main], lines 645-664, up to the call of
    [count_words]: the text is read first, then the ignore file. *)
Definition main_inputs (default_path : str) (inputs : list str)
    (input : stdin) (exclude_path : option str) (lang : str)
    : result (str * ignore_dict) :=
  match read_text_from_inputs inputs input with
  | SysExit code => SysExit code
  | Uncaught => Uncaught
  | Ok text =>
      match load_ignore_words default_path exclude_path lang with
      | SysExit code => SysExit code
      | Uncaught => Uncaught
      | Ok ignore => Ok (text, ignore)
      end
  end.
End Inputs.

(** An ignore file with the two lines "Der" and "  hund ", and a file
    system that holds it at "ignore.txt" and nothing else. *)
Definition sample_ignore_text : list N :=
  lit "Der" ++ [NEWLINE] ++ lit "  hund " ++ [NEWLINE].

Definition sample_fs (p : list N) : file :=
  if bool_decide (p = lit "ignore.txt") then Content sample_ignore_text
  else NotAFile.

(** A file system with one file that may not be read, "locked.txt", a
    name that [stat] refuses, "toolong", and a file that is not UTF-8,
    "latin.txt". *)
Definition hostile_fs (p : list N) : file :=
  if bool_decide (p = lit "locked.txt") then Unreadable
  else if bool_decide (p = lit "toolong") then StatFails
  else if bool_decide (p = lit "latin.txt") then Undecodable
  else NotAFile.

(** ** The table *)

Definition ESC : N := 27.
Definition RED : list N := ESC :: lit "[91m".
Definition GREEN : list N := ESC :: lit "[92m".
Definition YELLOW : list N := ESC :: lit "[93m".
Definition BLUE : list N := ESC :: lit "[94m".
Definition RESET : list N := ESC :: lit "[0m".

(** A character of the class [[0-9;]]. *)
Definition is_param (c : N) : bool := between 48 57 c || (c =? 59).

(** The length of the match of [[0-9;]*m] at the start of [s], if any. The
    class does not hold "m", so the greedy match is the only one. *)
Fixpoint params_len (s : str) : option nat :=
  match s with
  | [] => None
  | c :: r =>
      if is_param c then S <$> params_len r
      else if c =? 109 then Some 1%nat
      else None
  end.

(** The length of the match of [\x1b\[[0-9;]*m] at the start of [s]. *)
Definition escape_len (s : str) : option nat :=
  match s with
  | c0 :: c1 :: r =>
      if (c0 =? ESC) && (c1 =? 91) then (fun n => S (S n)) <$> params_len r
      else None
  | _ => None
  end.

(** [re.sub(r'\x1b\[[0-9;]*m', '', s)]: left to right, a match is dropped
    and the scan goes on behind it; [skip] counts the characters of the
    current match that are still to drop. *)
Fixpoint strip_ansi_from (skip : nat) (s : str) : str :=
  match s with
  | [] => []
  | c :: r =>
      match skip with
      | S k => strip_ansi_from k r
      | O =>
          match escape_len s with
          | Some (S n) => strip_ansi_from n r
          | _ => c :: strip_ansi_from 0 r
          end
      end
  end.

Definition strip_ansi (s : str) : str := strip_ansi_from 0 s.

(** [str.ljust(width)] and [str.center(width)] with the space as filler.
    [center] puts the odd space on the left when the width is odd too. *)
Definition ljust (width : nat) (s : str) : str :=
  s ++ repeat SPACE (width - length s).

Definition center (width : nat) (s : str) : str :=
  let marg := (width - length s)%nat in
  let left := (marg / 2 + if Nat.odd marg && Nat.odd width then 1 else 0)%nat in
  repeat SPACE left ++ s ++ repeat SPACE (marg - left).

(** [str(n)] for a count. *)
Definition str_of_nat (n : nat) : str :=
  lit (NilEmpty.string_of_uint (Nat.to_uint n)).

Definition HEAVY_LINE : N := 0x2501.

(** The three column widths of [format_table], lines 445-447. *)
Definition max_word (entries : list (str * nat * list N)) : nat :=
  list_max (length (strip_ansi (lit "Palabra"))
            :: map (fun e => length (strip_ansi (fst (fst e)))) entries).

Definition max_freq (entries : list (str * nat * list N)) : nat :=
  list_max (length (strip_ansi (lit "Frecuencia"))
            :: map (fun e => length (str_of_nat (snd (fst e)))) entries).

Definition max_mean (entries : list (str * nat * list N)) : nat :=
  list_max (length (strip_ansi (lit "Significado(s)"))
            :: map (fun e => length (strip_ansi (snd e))) entries).

Definition sep_line (entries : list (str * nat * list N)) : str :=
  repeat HEAVY_LINE (max_word entries + max_freq entries + max_mean entries + 8).

Definition header_line (entries : list (str * nat * list N)) : str :=
  let header_word := BLUE ++ lit "Palabra" ++ RESET in
  let header_freq := YELLOW ++ lit "Frecuencia" ++ RESET in
  let header_mean := GREEN ++ lit "Significado(s)" ++ RESET in
  lit " " ++ ljust (max_word entries) header_word ++ lit " | "
  ++ center (max_freq entries) header_freq ++ lit " | "
  ++ ljust (max_mean entries) header_mean.

Definition row_line (entries : list (str * nat * list N))
    (e : str * nat * list N) : str :=
  let '(original, count, meaning) := e in
  lit " " ++ BLUE ++ ljust (max_word entries) original ++ RESET ++ lit " | "
  ++ YELLOW ++ center (max_freq entries) (str_of_nat count) ++ RESET
  ++ lit " | " ++ GREEN ++ ljust (max_mean entries) meaning ++ RESET.

(** The list [lines] of [format_table], lines 451-460. *)
Definition table_lines (entries : list (str * nat * list N)) : list str :=
  [sep_line entries; header_line entries; sep_line entries]
  ++ map (row_line entries) entries ++ [sep_line entries].

(** [format_table], lines 431-461, for entries whose meaning is a string. *)
Definition format_table (entries : list (str * nat * list N)) : str :=
  join [NEWLINE] (table_lines entries).

(** What a row shows once the colour codes are taken away. *)
Definition visible_row (entries : list (str * nat * list N))
    (e : str * nat * list N) : str :=
  lit " " ++ ljust (max_word entries) (fst (fst e)) ++ lit " | "
  ++ center (max_freq entries) (str_of_nat (snd (fst e))) ++ lit " | "
  ++ ljust (max_mean entries) (snd e).

(** Two entries of a table. *)
Definition sample_table : list (list N * nat * list N) :=
  [(lit "Hund", 12%nat, lit "perro"); (Massstaebe, 3%nat, lit "criterios")].

(** ** Proof tactics *)

(** The two shapes of [cache[lang]] after line 673: what the file held for
    the language, or a fresh dictionary. *)
Ltac cache_cases disk lang :=
  let Hl := fresh "Hl" in
  destruct (load_cache disk !! lang) as [[| | | | |?d]|] eqn:Hl;
  [rewrite ?Hl.. | rewrite ?lookup_insert_eq].

(** Case analysis on the comparisons of a code point with constants. *)
Ltac by_cases_on_code_points :=
  repeat match goal with
  | H : context [N.leb ?a ?b] |- _ =>
      destruct (N.leb_spec a b); try lia; simpl in H
  | H : context [N.eqb ?a ?b] |- _ =>
      destruct (N.eqb_spec a b); try lia; simpl in H
  | |- context [N.leb ?a ?b] => destruct (N.leb_spec a b); try lia; simpl
  | |- context [N.eqb ?a ?b] => destruct (N.eqb_spec a b); try lia; simpl
  end.

(** ** Lower-casing *)

Section LowerFacts.
Context {U : Unicode} {HU : CaseLaws U}.

Lemma sigma_out_lowercase before after :
  lowercase [handle_capital_sigma before after].
Proof.
  unfold handle_capital_sigma.
  repeat constructor; repeat case_match;
    try (unfold FINAL_SIGMA, SMALL_SIGMA, SIGMA; discriminate);
    auto using final_sigma_fixed, small_sigma_fixed.
Qed.

Lemma lower_ucs4_lowercase before c after :
  lowercase (lower_ucs4 before c after).
Proof.
  unfold lower_ucs4. case_match.
  - apply sigma_out_lowercase.
  - apply Forall_forall. intros d Hd. apply list_elem_of_In in Hd.
    eapply tolower_stable; eauto.
Qed.

Lemma do_lower_lowercase s : ∀ before, lowercase (do_lower before s).
Proof.
  induction s as [|c s IH]; intros before; simpl.
  - constructor.
  - apply Forall_app. split; [apply lower_ucs4_lowercase | apply IH].
Qed.

Lemma do_lower_fixed s : lowercase s → ∀ before, do_lower before s = s.
Proof.
  induction 1 as [|c s [Hc Hf] _ IH]; intros before; simpl; [done|].
  unfold lower_ucs4. apply N.eqb_neq in Hc. rewrite Hc, Hf. simpl.
  by rewrite IH.
Qed.

Lemma lower_lowercase s : lowercase (lower s).
Proof. apply do_lower_lowercase. Qed.

Lemma lower_fixed s : lowercase s → lower s = s.
Proof. intros H. by apply do_lower_fixed. Qed.

Lemma lower_idempotent s : lower (lower s) = lower s.
Proof. apply lower_fixed, lower_lowercase. Qed.

Lemma normalize_word_lowercase w lang : lowercase (normalize_word w lang).
Proof.
  unfold normalize_word. case_bool_decide; [constructor|].
  apply lower_lowercase.
Qed.
End LowerFacts.

(** ** Insertion-ordered dictionaries: lookup after store *)

Lemma od_get_set {V} (d : odict V) k v k' :
  od_get (od_set d k v) k' = if bool_decide (k = k') then Some v else od_get d k'.
Proof.
  induction d as [|[k0 v0] d IH]; simpl.
  - repeat case_bool_decide; congruence.
  - repeat (case_bool_decide; simpl); try congruence.
Qed.

Lemma od_keys_set {V} (d : odict V) k v :
  od_keys (od_set d k v) =
    match od_get d k with Some _ => od_keys d | None => od_keys d ++ [k] end.
Proof.
  induction d as [|[k0 v0] d IH]; simpl; [done|].
  case_bool_decide; simpl; [done|].
  unfold od_keys in *. rewrite IH. by destruct (od_get d k).
Qed.

Lemma od_get_keys {V} (d : odict V) k v : od_get d k = Some v → In k (od_keys d).
Proof.
  induction d as [|[k0 v0] d IH]; simpl; [done|].
  case_bool_decide; [left; done | right; auto].
Qed.

Lemma od_keys_get {V} (d : odict V) k : In k (od_keys d) → is_Some (od_get d k).
Proof.
  induction d as [|[k0 v0] d IH]; simpl; [done|].
  intros [->|H]; case_bool_decide; eauto; congruence.
Qed.

(** ** Aggregation *)

Section AggregationFacts.
Context {U : Unicode}.
Variables (lang : str) (ign : ignore_dict).

Lemma entry_of_snoc k seen t :
  entry_of lang ign k (seen ++ [t]) =
    if retained_as lang ign k t then
      match entry_of lang ign k seen with
      | None => Some (Entry t 1)
      | Some (Entry first n) => Some (Entry first (S n))
      end
    else entry_of lang ign k seen.
Proof.
  unfold entry_of. rewrite List.filter_app. simpl.
  destruct (retained_as lang ign k t); simpl.
  - destruct (List.filter (retained_as lang ign k) seen) as [|f more]; simpl; [done|].
    rewrite length_app. simpl. do 3 f_equal. lia.
  - by rewrite app_nil_r.
Qed.

Lemma count_step_tracks seen words_data t :
  tracks lang ign seen words_data →
  tracks lang ign (seen ++ [t]) (count_step lang ign words_data t).
Proof.
  intros H k. rewrite entry_of_snoc. unfold count_step, retained_as.
  destruct (skipped lang ign t) eqn:Hs; simpl; [apply H|].
  destruct (od_get words_data (normalize_word t lang)) as [[first n]|] eqn:Hg;
    rewrite od_get_set; case_bool_decide; subst; try apply H.
  - rewrite <- H, Hg. done.
  - rewrite <- H, Hg. done.
Qed.

Lemma fold_count_step_tracks tokens : ∀ seen words_data,
  tracks lang ign seen words_data →
  tracks lang ign (seen ++ tokens) (fold_left (count_step lang ign) tokens words_data).
Proof.
  induction tokens as [|t tokens IH]; intros seen wd H; simpl.
  - by rewrite app_nil_r.
  - replace (seen ++ t :: tokens) with ((seen ++ [t]) ++ tokens)
      by (by rewrite <- app_assoc).
    apply IH, count_step_tracks, H.
Qed.

Lemma count_tokens_tracks tokens :
  tracks lang ign tokens (count_tokens lang ign tokens).
Proof. apply (fold_count_step_tracks tokens [] []). by intros k. Qed.

(** Every key of the dictionary is the normalized form of a token. *)
Lemma count_step_keys words_data t k :
  In k (od_keys (count_step lang ign words_data t)) →
  In k (od_keys words_data) ∨ k = normalize_word t lang.
Proof.
  unfold count_step. destruct (skipped lang ign t); [auto|].
  destruct (od_get words_data (normalize_word t lang)) as [[first n]|] eqn:Hg;
    rewrite od_keys_set, Hg; [auto|].
  rewrite in_app_iff. simpl. intuition.
Qed.

Lemma fold_count_step_keys tokens : ∀ words_data k,
  In k (od_keys (fold_left (count_step lang ign) tokens words_data)) →
  In k (od_keys words_data) ∨ ∃ t, In t tokens ∧ k = normalize_word t lang.
Proof.
  induction tokens as [|t tokens IH]; intros wd k H; simpl in *; [auto|].
  destruct (IH _ _ H) as [H1|(t' & Ht' & ->)].
  - destruct (count_step_keys _ _ _ H1) as [?| ->]; [auto|]. right. eauto.
  - right. eauto.
Qed.

Lemma count_tokens_keys tokens k :
  In k (od_keys (count_tokens lang ign tokens)) →
  ∃ t, In t tokens ∧ k = normalize_word t lang.
Proof.
  intros H. destruct (fold_count_step_keys _ _ _ H) as [[]|?]. done.
Qed.

(** The counts add up to the number of tokens that were not skipped. *)
Lemma sum_counts_set_new (d : odict entry) k v :
  od_get d k = None → sum_counts (od_set d k v) = (sum_counts d + count v)%nat.
Proof.
  unfold sum_counts, od_values.
  induction d as [|[k0 v0] d IH]; simpl; [lia|].
  case_bool_decide; [done|]. intros Hg. simpl. rewrite IH by done. lia.
Qed.

Lemma sum_counts_set_incr (d : odict entry) k first n :
  od_get d k = Some (Entry first n) →
  sum_counts (od_set d k (Entry first (S n))) = S (sum_counts d).
Proof.
  unfold sum_counts, od_values.
  induction d as [|[k0 v0] d IH]; simpl; [done|].
  case_bool_decide; simpl.
  - intros [= ->]. simpl. lia.
  - intros Hg. rewrite IH by done. lia.
Qed.

Lemma sum_counts_step words_data t :
  sum_counts (count_step lang ign words_data t) =
    (sum_counts words_data + if skipped lang ign t then 0 else 1)%nat.
Proof.
  unfold count_step. destruct (skipped lang ign t); [lia|].
  destruct (od_get words_data (normalize_word t lang)) as [[first n]|] eqn:Hg.
  - rewrite (sum_counts_set_incr _ _ _ _ Hg). lia.
  - rewrite (sum_counts_set_new _ _ _ Hg). simpl. lia.
Qed.

Lemma sum_counts_fold tokens : ∀ words_data,
  sum_counts (fold_left (count_step lang ign) tokens words_data) =
    (sum_counts words_data
     + length (List.filter (fun t => negb (skipped lang ign t)) tokens))%nat.
Proof.
  induction tokens as [|t tokens IH]; intros wd; simpl; [lia|].
  rewrite IH, sum_counts_step. destruct (skipped lang ign t); simpl; lia.
Qed.

Lemma skipped_by_ignore t :
  normalize_word t lang ∈ normalized ign ∨ lower t ∈ originals ign →
  skipped lang ign t = true.
Proof.
  intros Hign. unfold skipped.
  destruct (contains_number t); [done|].
  repeat (case_bool_decide; [done|]). tauto.
Qed.
End AggregationFacts.

(** ** The aggregator's contract *)

(** C3. For every text, language and ignore specification, the counts of the
    entries returned by [count_words] add up to the considered-token count
    it returns, and that count is at most the total token count; the total
    is the number of raw tokens and the considered count is the number of
    tokens that no filter skipped. *)
Theorem count_words_count_invariant {U : Unicode}
    (text lang : str) (ign : ignore_dict) :
  let '(words_data, total_tokens, considered_tokens) :=
    count_words text lang ign in
  list_sum (map count (od_values words_data)) = considered_tokens
  ∧ (considered_tokens ≤ total_tokens)%nat
  ∧ total_tokens = length (tokenize text)
  ∧ considered_tokens =
      length (List.filter (fun t => negb (skipped lang ign t)) (tokenize text)).
Proof.
  unfold count_words, count_tokens. cbv zeta.
  pose proof (sum_counts_fold lang ign (tokenize text) []) as Hsum.
  change (sum_counts []) with 0%nat in Hsum. simpl in Hsum.
  repeat split; try done.
  rewrite Hsum. apply List.filter_length_le.
Qed.

(** C6. A token whose normalized key is in the ignore specification's
    normalized set, or whose lower-case literal form is in its originals
    set, leaves the aggregation map as it was: the loop step does nothing
    for it, and the map of a token list is the map of the list without that
    token. Either match alone suffices. *)
Theorem ignore_union_semantics {U : Unicode}
    (lang : str) (ign : ignore_dict) (t : str) :
  normalize_word t lang ∈ normalized ign ∨ lower t ∈ originals ign →
  (∀ words_data, count_step lang ign words_data t = words_data)
  ∧ (∀ before after,
       count_tokens lang ign (before ++ t :: after) =
       count_tokens lang ign (before ++ after)).
Proof.
  intros Hign. apply skipped_by_ignore in Hign.
  assert (Hstep : ∀ wd, count_step lang ign wd t = wd).
  { intros wd. unfold count_step. by rewrite Hign. }
  split; [done|]. intros before after. unfold count_tokens.
  rewrite !fold_left_app. simpl. by rewrite Hstep.
Qed.

(** C7. The [original] of an entry is the first retained token, in input
    order, that mapped to the entry's key; its count is the number of such
    tokens; reading more tokens keeps the [original] and can only raise the
    count. *)
Theorem first_seen_original {U : Unicode}
    (lang : str) (ign : ignore_dict) (tokens : list str) (k : str) (e : entry) :
  od_get (count_tokens lang ign tokens) k = Some e →
  ∃ more,
    List.filter (retained_as lang ign k) tokens = original e :: more
    ∧ count e = S (length more)
    ∧ ∀ later e',
        od_get (count_tokens lang ign (tokens ++ later)) k = Some e' →
        original e' = original e ∧ (count e ≤ count e')%nat.
Proof.
  rewrite (count_tokens_tracks lang ign tokens k). unfold entry_of.
  destruct (List.filter (retained_as lang ign k) tokens) as [|first more] eqn:Hf;
    [done|].
  intros [= <-]. exists more. simpl. split; [done|]. split; [done|].
  intros later e'.
  rewrite (count_tokens_tracks lang ign (tokens ++ later) k). unfold entry_of.
  rewrite List.filter_app, Hf. simpl. intros [= <-]. simpl.
  rewrite length_app. split; [done|lia].
Qed.

(** ** Resolution *)

Section ResolverFacts.
Context {U : Unicode}.
Variable W : Type.
Variable DEEPL_CLIENT : option (str → str → str → W → deepl_reply * W).
Variable requests : option (str → str → W → http_reply * W).

Abbreviation state := (run_state W).
Abbreviation resolve := (get_translation DEEPL_CLIENT requests).
Abbreviation deepl := (translate_with_deepl DEEPL_CLIENT).
Abbreviation mymemory := (translate_with_mymemory requests).

(** The providers touch the network only: neither the cache nor the trace. *)
Lemma deepl_frame text src tgt (s : state) :
  deepl text src tgt s = framed (provider_run (deepl text src tgt) (world s)) s.
Proof.
  unfold provider_run, framed, translate_with_deepl.
  destruct DEEPL_CLIENT as [f|]; [|by destruct s].
  unfold mbind, M_bind, call. simpl.
  destruct (f text src tgt (world s)) as [[|[t|]] w']; reflexivity.
Qed.


Lemma mymemory_frame text src tgt (s : state) :
  mymemory text src tgt s =
    framed (provider_run (mymemory text src tgt) (world s)) s.
Proof.
  unfold provider_run, framed, translate_with_mymemory.
  destruct requests as [f|]; [|by destruct s].
  unfold mbind, M_bind, call. cbn [world lang_cache trace].
  destruct (f text (src ++ lit "|" ++ tgt) (world s)) as [[|js] w'];
    [reflexivity|].
  repeat (case_match; try reflexivity).
Qed.

(** Step 1 of the chain: a key of the cache is answered from the cache. *)
Lemma resolve_hit k ow lang (s : state) v :
  lang_cache s !! k = Some v → resolve k ow lang s = (v, s).
Proof.
  intros H. unfold get_translation, mbind, M_bind, cache_lookup. by rewrite H.
Qed.

Lemma resolve_miss k ow lang (s : state) :
  lang_cache s !! k = None →
  resolve k ow lang s = chain_result DEEPL_CLIENT requests k ow lang s.
Proof.
  intros H. unfold get_translation, chain_result.
  unfold mbind, M_bind, cache_lookup. rewrite H.
  unfold log at 1. rewrite deepl_frame. unfold framed. simpl.
  destruct (provider_run _ (world s)) as [o1 w1]. simpl.
  destruct (usable o1) as [r|].
  - unfold cache_store, mret, M_ret. simpl. by rewrite <- app_assoc.
  - unfold log. rewrite mymemory_frame. unfold framed. simpl.
    destruct (provider_run _ w1) as [o2 w2]. simpl.
    destruct (usable o2) as [r|]; unfold cache_store, mret, M_ret; simpl;
      by rewrite <- !app_assoc.
Qed.

(** After a resolution the key is in the cache with the value returned. *)
Lemma resolve_caches k ow lang (s : state) :
  lang_cache (snd (resolve k ow lang s)) !! k = Some (fst (resolve k ow lang s)).
Proof.
  destruct (lang_cache s !! k) as [v|] eqn:Hk.
  - by rewrite (resolve_hit _ _ _ _ _ Hk).
  - rewrite (resolve_miss _ _ _ _ Hk). unfold chain_result.
    destruct (provider_run _ (world s)) as [o1 w1].
    destruct (usable o1); simpl; [by rewrite lookup_insert_eq|].
    destruct (provider_run _ w1) as [o2 w2].
    destruct (usable o2); simpl; by rewrite lookup_insert_eq.
Qed.

(** A resolution extends the trace, and what it adds are calls of the
    providers for this word and one store under this key. *)
Lemma resolve_trace k ow lang (s : state) :
  ∃ added,
    trace (snd (resolve k ow lang s)) = trace s ++ added
    ∧ Forall (fun e => is_provider_call e = true ∨ ∃ v, e = EvStore k v) added.
Proof.
  destruct (lang_cache s !! k) as [v|] eqn:Hk.
  - rewrite (resolve_hit _ _ _ _ _ Hk). exists []. by rewrite app_nil_r.
  - rewrite (resolve_miss _ _ _ _ Hk). unfold chain_result.
    destruct (provider_run _ (world s)) as [o1 w1].
    destruct (usable o1); simpl.
    { eexists; split; [done|].
      repeat (constructor; [first [by left | right; eauto]|]).
      constructor. }
    destruct (provider_run _ w1) as [o2 w2].
    destruct (usable o2); simpl; (eexists; split; [done|]);
      repeat (constructor; [first [by left | right; eauto]|]);
      constructor.
Qed.

Lemma translate_all_trace lang items : ∀ s : state,
  ∃ added,
    trace (snd (translate_all DEEPL_CLIENT requests lang items s)) =
      trace s ++ added
    ∧ Forall (fun e => is_provider_call e = true
                       ∨ ∃ k v, e = EvStore k v ∧ In k (od_keys items)) added.
Proof.
  induction items as [|[norm info] items IH]; intros s; simpl.
  - exists []. by rewrite app_nil_r.
  - unfold mbind, M_bind.
    destruct (resolve_trace norm (original info) lang s) as (a1 & E1 & F1).
    destruct (resolve norm (original info) lang s) as [m s1]. simpl in *.
    destruct (IH s1) as (a2 & E2 & F2).
    destruct (translate_all _ _ lang items s1) as [tl s2]. simpl in *.
    exists (a1 ++ a2). rewrite E2, E1, app_assoc. split; [done|].
    apply Forall_app. split.
    + eapply Forall_impl; [exact F1|]. intros e [?|[v ->]]; [auto|].
      right. eauto.
    + eapply Forall_impl; [exact F2|]. intros e [?|(k & v & -> & ?)]; [auto|].
      right. eauto.
Qed.

(** The entries built by the loop are the entries of [words_data], in
    order, each with a meaning. *)
Lemma translate_all_entries lang items : ∀ s : state,
  map (fun x => (fst (fst x), snd (fst x)))
      (fst (translate_all DEEPL_CLIENT requests lang items s)) =
  map (fun kv => (original (snd kv), count (snd kv))) items.
Proof.
  induction items as [|[norm info] items IH]; intros s; simpl; [done|].
  unfold mbind, M_bind.
  destruct (resolve norm (original info) lang s) as [m s1].
  specialize (IH s1).
  destruct (translate_all _ _ lang items s1) as [tl s2]. simpl in *.
  by rewrite IH.
Qed.

(** Asking both providers adds the two calls to the trace, in order. *)
Lemma ask_both_trace ow lang (s : state) :
  trace (snd (ask_both DEEPL_CLIENT requests ow lang s))
  = trace s ++ [EvDeepL ow lang TARGET_LANG; EvMyMemory ow lang TARGET_LANG].
Proof.
  unfold ask_both, mbind, M_bind, log. cbn [world lang_cache trace].
  rewrite deepl_frame. unfold framed. cbn [fst snd world lang_cache trace].
  rewrite mymemory_frame. unfold framed. cbn [fst snd world lang_cache trace].
  unfold mret, M_ret. cbn [snd trace]. by rewrite <- app_assoc.
Qed.
End ResolverFacts.

(** C1. Resolution follows the chain cache, primary provider, secondary
    provider, sentinel, and stops at the first success. A key of the cache is
    answered with the cached value and the state (network, cache, trace) is
    untouched. For a key that is not in the cache: the primary provider is
    called; when what it returns is unusable (an exception, [None] or the
    empty string) the secondary provider is called next, and a usable answer
    of the secondary is the result; when both are unusable the result is
    the sentinel "X". In every such branch the result is stored under the key
    before returning, so resolving the same key again returns the same value
    and leaves the state untouched: no provider call. *)
Theorem resolve_fallback_chain {U : Unicode} (W : Type)
    (DEEPL_CLIENT : option (str → str → str → W → deepl_reply * W))
    (requests : option (str → str → W → http_reply * W))
    (k ow lang : str) (s : run_state W) :
  let resolve := get_translation DEEPL_CLIENT requests in
  let primary :=
    provider_run (translate_with_deepl DEEPL_CLIENT ow lang TARGET_LANG)
      (world s) in
  let secondary :=
    provider_run (translate_with_mymemory requests ow lang TARGET_LANG)
      (snd primary) in
  let ev1 := EvDeepL ow lang TARGET_LANG in
  let ev2 := EvMyMemory ow lang TARGET_LANG in
  (∀ v, lang_cache s !! k = Some v → resolve k ow lang s = (v, s))
  ∧ (∀ r, lang_cache s !! k = None → usable (fst primary) = Some r →
       resolve k ow lang s =
         (JStr r, RunState (snd primary) (<[k := JStr r]> (lang_cache s))
                    (trace s ++ [ev1; EvStore k (JStr r)])))
  ∧ (∀ r, lang_cache s !! k = None → usable (fst primary) = None →
       usable (fst secondary) = Some r →
       resolve k ow lang s =
         (JStr r, RunState (snd secondary) (<[k := JStr r]> (lang_cache s))
                    (trace s ++ [ev1; ev2; EvStore k (JStr r)])))
  ∧ (lang_cache s !! k = None → usable (fst primary) = None →
       usable (fst secondary) = None →
       resolve k ow lang s =
         (JStr SENTINEL,
          RunState (snd secondary) (<[k := JStr SENTINEL]> (lang_cache s))
            (trace s ++ [ev1; ev2; EvStore k (JStr SENTINEL)])))
  ∧ (usable Raise = None ∧ usable (Return None) = None
     ∧ usable (Return (Some [])) = None)
  ∧ lang_cache (snd (resolve k ow lang s)) !! k = Some (fst (resolve k ow lang s))
  ∧ (∀ ow', resolve k ow' lang (snd (resolve k ow lang s)) =
            resolve k ow lang s).
Proof.
  cbv zeta. split; [|split; [|split; [|split; [|split; [|split]]]]].
  - intros v Hv. by apply resolve_hit.
  - intros r Hk Hp. rewrite (resolve_miss _ _ _ _ _ _ _ Hk).
    unfold chain_result. destruct (provider_run _ (world s)) as [o1 w1].
    simpl in *. by rewrite Hp.
  - intros r Hk Hp Hs. rewrite (resolve_miss _ _ _ _ _ _ _ Hk).
    unfold chain_result. destruct (provider_run _ (world s)) as [o1 w1].
    simpl in *. rewrite Hp. destruct (provider_run _ w1) as [o2 w2].
    simpl in *. by rewrite Hs.
  - intros Hk Hp Hs. rewrite (resolve_miss _ _ _ _ _ _ _ Hk).
    unfold chain_result. destruct (provider_run _ (world s)) as [o1 w1].
    simpl in *. rewrite Hp. destruct (provider_run _ w1) as [o2 w2].
    simpl in *. by rewrite Hs.
  - done.
  - apply resolve_caches.
  - intros ow'. pose proof (resolve_caches W DEEPL_CLIENT requests k ow lang s) as Hc.
    destruct (get_translation DEEPL_CLIENT requests k ow lang s) as [v s'].
    simpl in *. by apply resolve_hit.
Qed.

(** ** Output order *)

Lemma str_lt_asym a : ∀ b, str_lt a b = true → str_lt b a = false.
Proof.
  induction a as [|x a IH]; intros [|y b]; simpl; try done.
  destruct (N.ltb_spec x y), (N.ltb_spec y x), (N.eqb_spec x y),
    (N.eqb_spec y x); try done; try lia. apply IH.
Qed.

Lemma str_lt_connected a : ∀ b, str_lt b a = false → str_lt a b = true ∨ a = b.
Proof.
  induction a as [|x a IH]; intros [|y b]; simpl; try done; auto.
  destruct (N.ltb_spec x y), (N.ltb_spec y x), (N.eqb_spec x y),
    (N.eqb_spec y x); try done; try lia; auto.
  intros Hs. destruct (IH _ Hs) as [?| ->]; subst; auto.
Qed.

Section SortFacts.
Context {U : Unicode}.

Lemma key_lt_asym k1 k2 : key_lt k1 k2 = true → key_lt k2 k1 = false.
Proof.
  unfold key_lt.
  destruct (Z.ltb_spec (fst k1) (fst k2)), (Z.ltb_spec (fst k2) (fst k1)),
    (Z.eqb_spec (fst k1) (fst k2)), (Z.eqb_spec (fst k2) (fst k1));
    try done; try lia. apply str_lt_asym.
Qed.

Lemma sort_insert_perm x l : Permutation (sort_insert x l) (x :: l).
Proof.
  induction l as [|y l IH]; simpl; [done|].
  destruct (key_lt (sort_key y) (sort_key x)); [|done].
  rewrite IH. apply perm_swap.
Qed.

Lemma sort_entries_perm l : Permutation (sort_entries l) l.
Proof.
  induction l as [|x l IH]; simpl; [done|].
  rewrite sort_insert_perm. by constructor.
Qed.

Lemma sort_insert_hd x y l :
  in_order y x → HdRel in_order y l → HdRel in_order y (sort_insert x l).
Proof.
  intros Hyx Hl. destruct l as [|z l]; simpl; [by constructor|].
  destruct (key_lt (sort_key z) (sort_key x)); constructor; [|done].
  by inversion Hl.
Qed.

Lemma sort_insert_sorted x l :
  Sorted in_order l → Sorted in_order (sort_insert x l).
Proof.
  induction 1 as [|y l Hs IH Hhd]; simpl; [by repeat constructor|].
  destruct (key_lt (sort_key y) (sort_key x)) eqn:Hlt.
  - constructor; [done|]. apply sort_insert_hd; [|done].
    by apply key_lt_asym.
  - repeat constructor; done.
Qed.

Lemma sort_entries_sorted l : Sorted in_order (sort_entries l).
Proof.
  induction l as [|x l IH]; simpl; [constructor|].
  by apply sort_insert_sorted.
Qed.

Lemma sorted_adjacent (l : list (str * nat * json)) : Sorted in_order l →
  ∀ i a b, l !! i = Some a → l !! S i = Some b → in_order a b.
Proof.
  induction 1 as [|x l Hs IH Hhd]; intros i a b Ha Hb; [done|].
  destruct i as [|i]; simpl in *.
  - injection Ha as ->. destruct l as [|y l]; [done|].
    injection Hb as ->. by inversion Hhd.
  - eapply IH; eauto.
Qed.

(** What [in_order] says in terms of counts and lower-cased spellings. *)
Lemma in_order_spelled (a b : str * nat * json) : in_order a b →
  (snd (fst b) < snd (fst a))%nat
  ∨ (snd (fst a) = snd (fst b)
     ∧ (str_lt (lower (fst (fst a))) (lower (fst (fst b))) = true
        ∨ lower (fst (fst a)) = lower (fst (fst b)))).
Proof.
  unfold in_order, key_lt, sort_key. simpl.
  destruct (Z.ltb_spec (- Z.of_nat (snd (fst b))) (- Z.of_nat (snd (fst a))));
    [done|].
  destruct (Z.eqb_spec (- Z.of_nat (snd (fst b))) (- Z.of_nat (snd (fst a)))).
  - intros Hs. right. split; [lia|]. by apply str_lt_connected.
  - intros _. left. lia.
Qed.
End SortFacts.

(** ** The run *)

Section MainFacts.
Context {U : Unicode}.
Variable W : Type.
Variable DEEPL_CLIENT : option (str → str → str → W → deepl_reply * W).
Variable requests : option (str → str → W → http_reply * W).

Abbreviation run := (main DEEPL_CLIENT requests).

(** The events up to the [TypeError] of a run whose [cache[lang]] is not a
    dictionary: the load of the cache and, when the key test of line 331
    returned false, the two provider calls for the first word. *)
Lemma first_turn_fails_trace v lang norm info rest w :
  snd (first_turn_fails DEEPL_CLIENT requests v lang ((norm, info) :: rest) w)
  = EvLoadCache ::
      match slice_contains v norm with
      | Some false => [EvDeepL (original info) lang TARGET_LANG;
                       EvMyMemory (original info) lang TARGET_LANG]
      | _ => []
      end.
Proof.
  unfold first_turn_fails.
  destruct (slice_contains v norm) as [[|]|]; try reflexivity.
  pose proof (ask_both_trace W DEEPL_CLIENT requests (original info) lang
                (RunState w ∅ [EvLoadCache])) as Ht.
  destruct (ask_both _ _ _ _ _) as [[] s]. exact Ht.
Qed.

Lemma first_turn_fails_no_store v lang words_data w k x :
  ¬ In (EvStore k x)
      (snd (first_turn_fails DEEPL_CLIENT requests v lang words_data w)).
Proof.
  destruct words_data as [|[norm info] rest]; [simpl; intros [?|[]]; done|].
  rewrite first_turn_fails_trace.
  destruct (slice_contains v norm) as [[|]|]; simpl; intuition discriminate.
Qed.

(** What is shown is the sorted list of the entries of [words_data]. *)
Lemma main_shown lang nt text ign disk writable w entries total considered w' tr :
  run lang nt text ign disk writable w = (Shown entries total considered, w', tr) →
  ∃ raw,
    entries = sort_entries raw
    ∧ map shown_pair raw =
        map item_pair (count_tokens lang ign (tokenize text))
    ∧ total = length (tokenize text)
    ∧ considered = sum_counts (count_tokens lang ign (tokenize text)).
Proof.
  unfold main, count_words. cbv zeta.
  destruct (count_tokens lang ign (tokenize text)) as [|kv wd] eqn:Hwd; [done|].
  destruct (nt || bool_decide (lang = lit "es")).
  - intros [= <- <- <- <- <-].
    exists (map (fun '(_, info) => (original info, count info, JStr PLACEHOLDER))
              (kv :: wd)).
    split; [done|]. split; [|done].
    rewrite map_map. apply map_ext. by intros [k e].
  - cache_cases disk lang; try done;
    match goal with |- context [translate_all _ _ lang ?items ?s0] =>
      pose proof (translate_all_entries W DEEPL_CLIENT requests lang items s0) as He;
      destruct (translate_all DEEPL_CLIENT requests lang items s0) as [raw s]
    end;
    intros [= <- <- <- <- <-]; exists raw; done.
Qed.

(** A store of the run is a store under a key of [words_data]. *)
Lemma translate_all_stores lang items w d k v :
  In (EvStore k v)
     (trace (snd (translate_all DEEPL_CLIENT requests lang items
                    (RunState w d [EvLoadCache])))) →
  In k (od_keys items).
Proof.
  destruct (translate_all_trace W DEEPL_CLIENT requests lang items
              (RunState w d [EvLoadCache])) as (added & -> & Hadd).
  cbn [trace]. rewrite in_app_iff. intros [[?|[]]|Hin]; [done|].
  rewrite Forall_forall in Hadd. apply list_elem_of_In, Hadd in Hin.
  destruct Hin as [?|(k' & v' & [= -> ->] & ?)]; done.
Qed.

Lemma save_cache_no_store writable cache k v :
  ¬ In (EvStore k v) (save_cache writable cache).
Proof. destruct writable; simpl; intros [?|[]]; done. Qed.

Lemma main_stores lang nt text ign disk writable w k v :
  In (EvStore k v) (snd (run lang nt text ign disk writable w)) →
  In k (od_keys (count_tokens lang ign (tokenize text))).
Proof.
  unfold main, count_words. cbv zeta.
  destruct (count_tokens lang ign (tokenize text)) as [|kv wd] eqn:Hwd; [done|].
  destruct (nt || bool_decide (lang = lit "es")).
  { simpl. intros [?|[]]. done. }
  cache_cases disk lang;
  try (cbn [snd]; intros Hin; by apply first_turn_fails_no_store in Hin);
  match goal with |- context [translate_all _ _ lang ?items (RunState w ?d _)] =>
    pose proof (translate_all_stores lang items w d k v) as Hst;
    destruct (translate_all DEEPL_CLIENT requests lang items _) as [raw s]
  end;
  cbn [snd fst] in *; rewrite in_app_iff; intros [Hin|Hsave]; auto;
  by apply save_cache_no_store in Hsave.
Qed.


(** Whether the cache file can be written changes the last event only. *)
Lemma main_save_failure lang nt text ign disk w :
  fst (run lang nt text ign disk false w) = fst (run lang nt text ign disk true w)
  ∧ (snd (run lang nt text ign disk false w) =
       snd (run lang nt text ign disk true w)
     ∨ ∃ before cache,
         snd (run lang nt text ign disk true w) = before ++ [EvSaveCache cache]
         ∧ snd (run lang nt text ign disk false w) = before ++ [EvSaveWarning]).
Proof.
  unfold main, count_words. cbv zeta.
  destruct (count_tokens lang ign (tokenize text)) as [|kv wd]; [auto|].
  destruct (nt || bool_decide (lang = lit "es")); [auto|].
  cache_cases disk lang; auto;
  destruct (translate_all _ _ lang (kv :: wd) _) as [raw s];
  (split; [done|]); right; simpl; eauto.
Qed.
End MainFacts.

(** ** The concrete database obeys the laws *)

Lemma latin1_case_laws : CaseLaws latin1.
Proof.
  split; [reflexivity | reflexivity |].
  intros c d Hd. simpl in *.
  unfold latin1_tolower_full, between, SIGMA, SMALL_SIGMA, ESZETT, eszett in Hd.
  by_cases_on_code_points;
    repeat (destruct Hd as [Hd|Hd]; [subst d|]); try done;
    unfold latin1_tolower_full, between, SIGMA, SMALL_SIGMA, ESZETT, eszett;
    (split; [lia|]); by_cases_on_code_points; done.
Qed.

(** ** The German table *)

Section GermanFacts.
Context {U : Unicode}.

Lemma replace_app old new a b :
  replace old new (a ++ b) = replace old new a ++ replace old new b.
Proof. unfold replace. apply flat_map_app. Qed.

Lemma de_replace_app a b : de_replace (a ++ b) = de_replace a ++ de_replace b.
Proof. unfold de_replace. by rewrite !replace_app. Qed.

Lemma de_replace_char c : de_replace [c] = de_subst c.
Proof.
  unfold de_subst, de_table, assoc.
  destruct (N.eqb_spec c a_uml) as [->|]; [reflexivity|].
  destruct (N.eqb_spec c o_uml) as [->|]; [reflexivity|].
  destruct (N.eqb_spec c u_uml) as [->|]; [reflexivity|].
  destruct (N.eqb_spec c A_uml) as [->|]; [reflexivity|].
  destruct (N.eqb_spec c O_uml) as [->|]; [reflexivity|].
  destruct (N.eqb_spec c U_uml) as [->|]; [reflexivity|].
  destruct (N.eqb_spec c eszett) as [->|]; [reflexivity|].
  unfold de_replace, replace. cbn [flat_map app].
  repeat match goal with
  | Hne : c ≠ ?k |- context [N.eqb c ?k] =>
      rewrite (proj2 (N.eqb_neq c k) Hne); cbn [flat_map app]
  end. done.
Qed.

Lemma de_replace_table s : de_replace s = flat_map de_subst s.
Proof.
  induction s as [|c s IH]; [done|].
  change (c :: s) with ([c] ++ s). rewrite de_replace_app, de_replace_char, IH.
  done.
Qed.

(** What the table can write. *)
Lemma de_table_values c v :
  assoc de_table c = Some v →
  In v [lit "ae"; lit "oe"; lit "ue"; lit "Ae"; lit "Oe"; lit "Ue"; lit "ss"].
Proof.
  unfold de_table, assoc.
  repeat (case_match; [intros [= <-]; simpl; tauto|]). done.
Qed.

Lemma lower_nil : lower [] = [].
Proof. done. Qed.
End GermanFacts.

(** ** Trimming *)

Lemma dropwhile_head {A} (p : A → bool) s c t :
  dropwhile p s = c :: t → p c = false.
Proof.
  induction s as [|x s IH]; simpl; [done|].
  destruct (p x) eqn:Hx; [done|]. by intros [= <- _].
Qed.

Lemma dropwhile_keep {A} (p : A → bool) c t :
  p c = false → dropwhile p (c :: t) = c :: t.
Proof. intros H. simpl. by rewrite H. Qed.

Lemma dropwhile_snoc {A} (p : A → bool) s c :
  p c = false → dropwhile p (s ++ [c]) = dropwhile p s ++ [c].
Proof.
  intros Hc. induction s as [|x s IH]; simpl; [by rewrite Hc|].
  by destruct (p x).
Qed.

Lemma dropwhile_In {A} (p : A → bool) s x : In x (dropwhile p s) → In x s.
Proof.
  induction s as [|y s IH]; simpl; [done|].
  destruct (p y); simpl; auto.
Qed.

Section TrimFacts.
Context {U : Unicode}.

Lemma strip_In w x : In x (strip w) → In x w.
Proof.
  unfold strip, rstrip, lstrip. rewrite <- in_rev. intros H.
  apply dropwhile_In in H. rewrite <- in_rev in H. by apply dropwhile_In in H.
Qed.

Lemma strip_ends_ok w : ends_ok (strip w).
Proof.
  unfold strip, rstrip, lstrip. split.
  - intros c t Hs.
    destruct (dropwhile isspace w) as [|x l] eqn:Hl; [done|].
    pose proof (dropwhile_head _ _ _ _ Hl) as Hx.
    simpl in Hs. rewrite (dropwhile_snoc _ _ _ Hx), rev_app_distr in Hs.
    simpl in Hs. by injection Hs as <- _.
  - intros c t Hs. apply (f_equal (@rev N)) in Hs.
    rewrite rev_involutive, rev_app_distr in Hs. simpl in Hs.
    by apply dropwhile_head in Hs.
Qed.

Lemma ends_ok_strip s : ends_ok s → strip s = s.
Proof.
  intros [Hhd Hlast]. unfold strip, rstrip, lstrip.
  destruct s as [|c t]; [done|].
  rewrite (dropwhile_keep _ _ _ (Hhd c t eq_refl)).
  destruct (rev (c :: t)) as [|x r] eqn:Hr.
  { apply (f_equal (@rev N)) in Hr. by rewrite rev_involutive in Hr. }
  assert (Hx : isspace x = false).
  { apply (Hlast x (rev r)). apply (f_equal (@rev N)) in Hr.
    by rewrite rev_involutive in Hr. }
  rewrite (dropwhile_keep _ _ _ Hx), <- Hr. apply rev_involutive.
Qed.

Lemma expands_ends_ok s outs : expands s outs → ends_ok s → ends_ok (concat outs).
Proof.
  intros Hex [Hhd Hlast]. split.
  - intros c t Hc. destruct Hex as [|x out s' outs' [Hne Hsp] _]; [done|].
    destruct out as [|d out]; [done|]. simpl in Hc. injection Hc as <- _.
    specialize (Hsp (Hhd x s' eq_refl)). by inversion Hsp.
  - intros c t Hc.
    destruct (decide (s = [])) as [->|Hs].
    { inversion Hex; subst. by destruct t. }
    destruct (exists_last Hs) as (s' & x & ->).
    apply Forall2_app_inv_l in Hex as (outs' & o1 & _ & Hx & ->).
    inversion Hx as [|? out ? ? [Hne Hsp] Hnil]; subst. inversion Hnil; subst.
    rewrite concat_app in Hc. simpl in Hc. rewrite app_nil_r in Hc.
    destruct (exists_last Hne) as (out' & d & ->).
    rewrite app_assoc in Hc. apply app_inj_tail in Hc as [_ ->].
    specialize (Hsp (Hlast x s' eq_refl)).
    rewrite Forall_forall in Hsp. apply Hsp, list_elem_of_In, in_or_app.
    right. by left.
Qed.
End TrimFacts.

(** ** Idempotence of the normalizer away from the capital sharp s *)

Section IdempotenceFacts.
Context {U : Unicode} {HC : CaseLaws U} {HN : NormalizeLaws U}.

Lemma do_lower_expands s : ∀ before,
  ∃ outs, do_lower before s = concat outs ∧ expands s outs.
Proof.
  induction s as [|c s IH]; intros before; simpl.
  - exists []. split; [done|constructor].
  - destruct (IH (c :: before)) as (outs & -> & Hex).
    exists (lower_ucs4 before c s :: outs). split; [done|].
    constructor; [|done]. unfold lower_ucs4. case_match.
    + split; [done|]. intros _. repeat constructor.
      unfold handle_capital_sigma. destruct sigma_nonspace. by repeat case_match.
    + split; [apply tolower_nonempty|]. intros Hc. apply Forall_forall.
      intros d Hd. apply list_elem_of_In in Hd. by eapply tolower_nonspace.
Qed.

Lemma lower_ends_ok s : ends_ok s → ends_ok (lower s).
Proof.
  intros Hs. destruct (do_lower_expands s []) as (outs & Ho & Hex).
  unfold lower. rewrite Ho. by eapply expands_ends_ok.
Qed.

Lemma de_subst_expands s : expands s (map de_subst s).
Proof.
  induction s as [|c s IH]; simpl; constructor; [|done].
  unfold de_subst. destruct (assoc de_table c) as [v|] eqn:Hc.
  - apply de_table_values in Hc.
    repeat (destruct Hc as [<-|Hc];
            [split; [done|]; intros _; apply Forall_forall; intros d Hd;
             apply list_elem_of_In in Hd; apply letters_nonspace;
             vm_compute in Hd |- *; tauto|]).
    done.
  - split; [done|]. intros Hsp. by repeat constructor.
Qed.

Lemma de_replace_ends_ok s : ends_ok s → ends_ok (de_replace s).
Proof.
  intros Hs. rewrite de_replace_table, flat_map_concat_map.
  by eapply expands_ends_ok; [apply de_subst_expands|].
Qed.

(** What the table writes holds no letter of the table. *)
Lemma de_subst_free c : de_free (de_subst c).
Proof.
  unfold de_subst. destruct (assoc de_table c) as [v|] eqn:Hc.
  - apply de_table_values in Hc.
    repeat (destruct Hc as [<-|Hc]; [by repeat constructor|]). done.
  - by repeat constructor.
Qed.

Lemma de_replace_free s : de_free (de_replace s).
Proof.
  rewrite de_replace_table. induction s as [|c s IH]; simpl; [constructor|].
  apply Forall_app. split; [apply de_subst_free | done].
Qed.

Lemma de_replace_fixed s : de_free s → de_replace s = s.
Proof.
  rewrite de_replace_table. induction 1 as [|c s Hc _ IH]; simpl; [done|].
  rewrite IH. unfold de_subst. by rewrite Hc.
Qed.

Lemma de_subst_no_ESZETT c : c ≠ ESZETT → ¬ In ESZETT (de_subst c).
Proof.
  intros Hne. unfold de_subst. destruct (assoc de_table c) as [v|] eqn:Hc.
  - apply de_table_values in Hc.
    repeat (destruct Hc as [<-|Hc]; [vm_compute; intuition discriminate|]).
    done.
  - simpl. intuition.
Qed.

Lemma de_replace_no_ESZETT s : ¬ In ESZETT s → ¬ In ESZETT (de_replace s).
Proof.
  rewrite de_replace_table. induction s as [|c s IH]; simpl; [done|].
  intros Hs. rewrite in_app_iff. intros [H|H].
  - apply (de_subst_no_ESZETT c); [|done]. intros ->. tauto.
  - apply IH; tauto.
Qed.

(** A lower-case character is in the table only when it comes from a letter
    of the table or from the capital sharp s. *)
Lemma tolower_free c d :
  assoc de_table c = None → c ≠ ESZETT → In d (tolower_full c) →
  assoc de_table d = None.
Proof.
  intros Hc Hne Hd. destruct (assoc de_table d) as [v|] eqn:Hv; [|done].
  exfalso. destruct (tolower_stable c d Hd) as [_ Hfix].
  destruct capitals_change as (HA & HO & HU).
  unfold de_table, assoc in Hv, Hc.
  destruct (N.eqb_spec d a_uml) as [->|]; [|
  destruct (N.eqb_spec d o_uml) as [->|]; [|
  destruct (N.eqb_spec d u_uml) as [->|]; [|
  destruct (N.eqb_spec d A_uml) as [->|]; [done|
  destruct (N.eqb_spec d O_uml) as [->|]; [done|
  destruct (N.eqb_spec d U_uml) as [->|]; [done|
  destruct (N.eqb_spec d eszett) as [->|]; [|done]]]]]]].
  all: match type of Hd with In ?x _ =>
         assert (Hin : In x [a_uml; o_uml; u_uml; eszett]) by (simpl; tauto) end.
  all: pose proof (tolower_into_table c _ Hd Hin) as Hsrc; simpl in Hsrc.
  all: repeat (destruct Hsrc as [<-|Hsrc]; [by vm_compute in Hc|]); done.
Qed.

Lemma do_lower_free s : de_free s → ¬ In ESZETT s → ∀ before,
  de_free (do_lower before s).
Proof.
  induction 1 as [|c s Hc _ IH]; intros Hne before; simpl; [constructor|].
  apply Forall_app. split.
  - unfold lower_ucs4. case_match.
    + unfold handle_capital_sigma. by repeat case_match; repeat constructor.
    + apply Forall_forall. intros d Hd. apply list_elem_of_In in Hd.
      eapply tolower_free; eauto. intros ->. apply Hne. by left.
  - apply IH. intros H. apply Hne. by right.
Qed.

(** The normalizer is idempotent for every language other than "de", and
    for "de" on every word without the capital sharp s. *)
Lemma normalize_word_idempotent_off_ESZETT (w lang : str) :
  lang ≠ lit "de" ∨ ¬ In ESZETT w →
  normalize_word (normalize_word w lang) lang = normalize_word w lang.
Proof.
  intros Hcase.
  pose proof (normalize_word_lowercase w lang) as Hlow.
  assert (Hends : ends_ok (normalize_word w lang)).
  { unfold normalize_word. cbv zeta. case_bool_decide; [by split; intros ? []|].
    apply lower_ends_ok. case_bool_decide.
    - apply de_replace_ends_ok, strip_ends_ok.
    - apply strip_ends_ok. }
  assert (Hfree : lang = lit "de" → de_free (normalize_word w lang)).
  { intros ->. destruct Hcase as [?|Hw]; [done|].
    unfold normalize_word. cbv zeta. case_bool_decide; [constructor|].
    rewrite (bool_decide_eq_true_2 (lit "de" = lit "de")) by done.
    fold (de_replace (strip w)). apply do_lower_free.
    - apply de_replace_free.
    - apply de_replace_no_ESZETT. intros Hin. by apply Hw, strip_In. }
  remember (normalize_word w lang) as n eqn:Hn. clear Hn.
  unfold normalize_word. cbv zeta. rewrite (ends_ok_strip _ Hends).
  case_bool_decide; [done|]. case_bool_decide as Hl.
  - fold (de_replace n). rewrite (de_replace_fixed _ (Hfree Hl)).
    by apply lower_fixed.
  - by apply lower_fixed.
Qed.
End IdempotenceFacts.

Lemma latin1_normalize_laws : NormalizeLaws latin1.
Proof.
  split.
  - intros c. simpl. unfold latin1_tolower_full. by repeat case_match.
  - intros c d Hc Hd. simpl in *.
    unfold latin1_isspace, latin1_tolower_full, between, SIGMA, SMALL_SIGMA,
      ESZETT, eszett in *.
    by_cases_on_code_points;
      repeat (destruct Hd as [Hd|Hd]; [subst d|]); try done;
      by_cases_on_code_points; done.
  - done.
  - intros c Hc. vm_compute in Hc.
    repeat (destruct Hc as [<-|Hc]; [reflexivity|]). done.
  - intros c d Hd Hin. simpl in *.
    unfold latin1_tolower_full, between, SIGMA, SMALL_SIGMA, ESZETT, eszett,
      a_uml, o_uml, u_uml, A_uml, O_uml, U_uml in *.
    by_cases_on_code_points;
      repeat (destruct Hd as [Hd|Hd]; [subst d|]); try done;
      repeat (destruct Hin as [Hin|Hin]; [try lia|]); try done;
      lia.
  - done.
Qed.

Example normalize_word_idempotent_Massstaebe :
  normalize_word (U:=latin1) (normalize_word (U:=latin1) Massstaebe (lit "de"))
    (lit "de")
  = normalize_word (U:=latin1) Massstaebe (lit "de").
Proof.
  apply (normalize_word_idempotent_off_ESZETT
           (HC:=latin1_case_laws) (HN:=latin1_normalize_laws)).
  right. vm_compute. intuition discriminate.
Qed.

(** ** The normalizer's contract *)

(** C2. Normalization is not idempotent on the capital sharp s (U+1E9E)
    under "de": [str.lower()] turns it into the small sharp s after the
    table has been applied, so the key of the capital letter is the small
    letter, whose own key is "ss". In a text, "Straße" and "STRAẞE" end up
    under two keys. *)
Theorem normalize_word_capital_eszett :
  normalize_word (U:=latin1) [ESZETT] (lit "de") = [eszett]
  ∧ normalize_word (U:=latin1) [eszett] (lit "de") = lit "ss"
  ∧ normalize_word (U:=latin1)
      (normalize_word (U:=latin1) [ESZETT] (lit "de")) (lit "de")
    ≠ normalize_word (U:=latin1) [ESZETT] (lit "de")
  ∧ od_keys (fst (fst (count_words (U:=latin1) Strasse_twice (lit "de") no_ignore)))
    = [lit "strasse"; lit "stra" ++ [eszett] ++ lit "e"].
Proof. repeat split; try reflexivity. vm_compute. discriminate. Qed.

(** C5. For "de", [normalize_word] trims, applies the substitutions
    ä→ae, ö→oe, ü→ue, Ä→Ae, Ö→Oe, Ü→Ue, ß→ss in this order, which amounts to
    one pass of the table over the characters, and lower-cases; so
    "Maßstäbe" and "massstaebe" get the same key. For any other language
    tag it trims and lower-cases, and substitutes nothing. *)
Theorem german_table_then_lowercase :
  (∀ (U : Unicode) (w : str),
     normalize_word w (lit "de") =
       if bool_decide (strip w = []) then []
       else lower (de_replace (strip w)))
  ∧ (∀ (U : Unicode) (w : str),
       normalize_word w (lit "de") = lower (flat_map de_subst (strip w)))
  ∧ normalize_word (U:=latin1) Massstaebe (lit "de")
    = normalize_word (U:=latin1) (lit "massstaebe") (lit "de")
  ∧ (∀ (U : Unicode) (w lang : str),
       lang ≠ lit "de" → normalize_word w lang = lower (strip w)).
Proof.
  split; [|split; [|split]].
  - intros U w. unfold normalize_word. cbv zeta.
    rewrite (bool_decide_eq_true_2 (lit "de" = lit "de")) by done. done.
  - intros U w. unfold normalize_word. cbv zeta.
    rewrite (bool_decide_eq_true_2 (lit "de" = lit "de")) by done.
    case_bool_decide as Hw; [by rewrite Hw|].
    fold (de_replace (strip w)). by rewrite de_replace_table.
  - reflexivity.
  - intros U w lang Hl. unfold normalize_word. cbv zeta.
    rewrite (bool_decide_eq_false_2 _ Hl).
    case_bool_decide as Hw; [by rewrite Hw|done].
Qed.

Lemma german_table_then_lowercase_witness :
  lit "en" ≠ lit "de"
  ∧ normalize_word (U:=latin1) (lit " Run ") (lit "en") = lit "run".
Proof.
  assert (Hl : lit "en" ≠ lit "de") by (vm_compute; discriminate).
  split; [exact Hl|].
  rewrite (proj2 (proj2 (proj2 german_table_then_lowercase)) latin1 _ _ Hl).
  reflexivity.
Defined.

(** C10. The key returned by [normalize_word] is lower-case: lower-casing
    it again changes nothing. So is every key of the aggregation map and
    every key under which a run stores a translation. *)
Theorem lowercase_key_invariant {U : Unicode} (HU : CaseLaws U) :
  (∀ w lang : str, lower (normalize_word w lang) = normalize_word w lang)
  ∧ (∀ (text lang : str) (ign : ignore_dict) (k : str),
       In k (od_keys (fst (fst (count_words text lang ign)))) → lower k = k)
  ∧ (∀ (W : Type) DEEPL_CLIENT requests (lang : str) (nt : bool) (text : str)
       (ign : ignore_dict) (disk : cache_file) (writable : bool) (w : W)
       (k : str) (v : json),
       In (EvStore k v)
          (snd (main DEEPL_CLIENT requests lang nt text ign disk writable w)) →
       lower k = k).
Proof.
  assert (Hn : ∀ w lang : str, lower (normalize_word w lang) = normalize_word w lang).
  { intros w lang. apply lower_fixed, normalize_word_lowercase. }
  assert (Hk : ∀ (text lang : str) ign k,
             In k (od_keys (count_tokens lang ign (tokenize text))) → lower k = k).
  { intros text lang ign k Hin.
    destruct (count_tokens_keys _ _ _ _ Hin) as (t & _ & ->). apply Hn. }
  split; [exact Hn|]. split; [exact Hk|].
  intros W D R lang nt text ign disk writable w k v Hin.
  eapply Hk, main_stores, Hin.
Qed.

Lemma lowercase_key_invariant_witness :
  lower (U:=latin1) (normalize_word (U:=latin1) Massstaebe (lit "de"))
  = normalize_word (U:=latin1) Massstaebe (lit "de").
Proof.
  exact (proj1 (lowercase_key_invariant latin1_case_laws) Massstaebe (lit "de")).
Defined.

(** ** The run's contract *)

Lemma resolve_fallback_chain_witness :
  (get_translation (U:=latin1) failing_deepl perro_mymemory
     (lit "hund") (lit "Hund") (lit "de") fresh_state
   = (JStr (lit "perro"),
      RunState tt (<[lit "hund" := JStr (lit "perro")]> ∅)
        [EvDeepL (lit "Hund") (lit "de") TARGET_LANG;
         EvMyMemory (lit "Hund") (lit "de") TARGET_LANG;
         EvStore (lit "hund") (JStr (lit "perro"))]))
  ∧ (get_translation (U:=latin1) failing_deepl offline
       (lit "hund") (lit "Hund") (lit "de") fresh_state
     = (JStr SENTINEL,
        RunState tt (<[lit "hund" := JStr SENTINEL]> ∅)
          [EvDeepL (lit "Hund") (lit "de") TARGET_LANG;
           EvMyMemory (lit "Hund") (lit "de") TARGET_LANG;
           EvStore (lit "hund") (JStr SENTINEL)]))
  ∧ (get_translation (U:=latin1) failing_deepl offline
       (lit "hund") (lit "Hund") (lit "de")
       (RunState tt (<[lit "hund" := JStr (lit "perro")]> ∅) [])
     = (JStr (lit "perro"),
        RunState tt (<[lit "hund" := JStr (lit "perro")]> ∅) [])).
Proof.
  split; [|split].
  - apply (resolve_fallback_chain (U:=latin1) unit failing_deepl perro_mymemory
             (lit "hund") (lit "Hund") (lit "de") fresh_state);
      vm_compute; reflexivity.
  - apply (resolve_fallback_chain (U:=latin1) unit failing_deepl offline
             (lit "hund") (lit "Hund") (lit "de") fresh_state);
      vm_compute; reflexivity.
  - apply (resolve_fallback_chain (U:=latin1) unit failing_deepl offline
             (lit "hund") (lit "Hund") (lit "de")
             (RunState tt (<[lit "hund" := JStr (lit "perro")]> ∅) [])).
    vm_compute; reflexivity.
Defined.

Lemma ignore_union_semantics_witness :
  lower (U:=latin1) (lit "Der") ∈ originals ignore_der
  ∧ (normalize_word (U:=latin1) (lit "Der") (lit "de") ∉ normalized ignore_der)
  ∧ count_tokens (U:=latin1) (lit "de") ignore_der [lit "Der"; lit "Hund"]
    = count_tokens (U:=latin1) (lit "de") ignore_der [lit "Hund"].
Proof.
  assert (Hin : lower (U:=latin1) (lit "Der") ∈ originals ignore_der).
  { apply (bool_decide_unpack _). vm_compute. reflexivity. }
  split; [exact Hin|]. split; [apply not_elem_of_empty|].
  exact (proj2 (ignore_union_semantics (U:=latin1) (lit "de") ignore_der
                  (lit "Der") (or_intror Hin)) [] [lit "Hund"]).
Defined.

Lemma first_seen_original_witness :
  od_get (count_tokens (U:=latin1) (lit "en") no_ignore [lit "Run"; lit "run"])
         (lit "run") = Some (Entry (lit "Run") 2)
  ∧ ∃ more,
      List.filter (retained_as (U:=latin1) (lit "en") no_ignore (lit "run"))
        [lit "Run"; lit "run"] = lit "Run" :: more
      ∧ 2%nat = S (length more).
Proof.
  assert (Hget : od_get (count_tokens (U:=latin1) (lit "en") no_ignore
                           [lit "Run"; lit "run"]) (lit "run")
                 = Some (Entry (lit "Run") 2)) by (vm_compute; reflexivity).
  split; [exact Hget|].
  destruct (first_seen_original (U:=latin1) _ _ _ _ _ Hget) as (more & H1 & H2 & _).
  exists more. split; [exact H1 | exact H2].
Defined.




(** What the cache functions do guarantee. [load_cache] returns the empty
    dictionary when the file is missing, cannot be read, is not JSON, or is
    JSON that is not an object, and the file's object otherwise, whatever it
    holds: it has no failing case, and a run that starts from a file read
    as empty does not fail on it. When the file cannot be written,
    [save_cache] only warns: the run shows the same result and has made the
    same provider calls as when the file can be written. *)
Theorem cache_resilience :
  load_cache FileMissing = ∅
  ∧ load_cache FileUnreadable = ∅
  ∧ load_cache FileInvalidJson = ∅
  ∧ load_cache (FileJson JNull) = ∅
  ∧ (∀ b, load_cache (FileJson (JBool b)) = ∅)
  ∧ (∀ n, load_cache (FileJson (JNum n)) = ∅)
  ∧ (∀ s, load_cache (FileJson (JStr s)) = ∅)
  ∧ (∀ l, load_cache (FileJson (JArr l)) = ∅)
  ∧ (∀ d, load_cache (FileJson (JObj d)) = d)
  ∧ (∀ cache, save_cache false cache = [EvSaveWarning])
  ∧ (∀ (U : Unicode) (W : Type) DEEPL_CLIENT requests (lang : str) (nt : bool)
       (text : str) (ign : ignore_dict) (disk : cache_file) (writable : bool)
       (w : W),
       load_cache disk = ∅ →
       fst (fst (main DEEPL_CLIENT requests lang nt text ign disk writable w))
       ≠ UncaughtTypeError)
  ∧ (∀ (U : Unicode) (W : Type) DEEPL_CLIENT requests (lang : str) (nt : bool)
       (text : str) (ign : ignore_dict) (disk : cache_file) (w : W),
       let failed := main DEEPL_CLIENT requests lang nt text ign disk false w in
       let saved := main DEEPL_CLIENT requests lang nt text ign disk true w in
       fst failed = fst saved
       ∧ (snd failed = snd saved
          ∨ ∃ before cache,
              snd saved = before ++ [EvSaveCache cache]
              ∧ snd failed = before ++ [EvSaveWarning])).
Proof.
  repeat (split; [done|]). split.
  - intros U W D R lang nt text ign disk writable w Hempty.
    unfold main, count_words. cbv zeta. rewrite Hempty, lookup_empty.
    rewrite lookup_insert_eq.
    destruct (count_tokens lang ign (tokenize text)) as [|kv wd]; [done|].
    destruct (nt || bool_decide (lang = lit "es")); [done|].
    by destruct (translate_all _ _ lang (kv :: wd) _).
  - intros U W D R lang nt text ign disk w. apply main_save_failure.
Qed.

Lemma cache_resilience_witness :
  load_cache (FileJson (JArr [])) = ∅
  ∧ fst (fst (main (U:=latin1) failing_deepl offline (lit "de") false
                (lit "Der Hund") no_ignore (FileJson (JArr [])) false tt))
    ≠ UncaughtTypeError.
Proof.
  split; [reflexivity|].
  exact (proj1 (proj2 (proj2 (proj2 (proj2 (proj2 (proj2 (proj2 (proj2
           (proj2 (proj2 cache_resilience))))))))))
           latin1 unit failing_deepl offline (lit "de") false
           (lit "Der Hund") no_ignore (FileJson (JArr [])) false tt eq_refl).
Defined.

(** C8. [load_cache] looks at the top level of the file only. From a
    [cache.json] that holds [{"de": 5}] it returns that dictionary, not an
    empty one, and the run [vocab.py de "Der Hund"] that starts from it ends
    in the uncaught [TypeError] of the key test of line 331: no provider has
    been called, nothing is shown and nothing is saved. The same number as
    the whole file is read as an empty cache, and the same run shows its
    two words. *)
Theorem load_cache_keeps_malformed_slice :
  load_cache number_slice_file = number_slice
  ∧ load_cache number_slice_file ≠ ∅
  ∧ main (U:=latin1) failing_deepl offline (lit "de") false (lit "Der Hund")
      no_ignore number_slice_file true tt
    = (UncaughtTypeError, tt, [EvLoadCache])
  ∧ load_cache number_file = ∅
  ∧ fst (fst (main (U:=latin1) failing_deepl offline (lit "de") false
                (lit "Der Hund") no_ignore number_file true tt))
    = Shown [(lit "Der", 1%nat, JStr SENTINEL);
             (lit "Hund", 1%nat, JStr SENTINEL)] 2 2.
Proof.
  split; [reflexivity|]. split.
  - intros Hempty.
    assert (Hde : load_cache number_slice_file !! lit "de" = Some (JNum 5))
      by (vm_compute; reflexivity).
    rewrite Hempty, lookup_empty in Hde. discriminate Hde.
  - split; [vm_compute; reflexivity|]. split; [reflexivity|].
    vm_compute. reflexivity.
Qed.

(** C9. The triples handed to the table and to the savers are the entries
    of the aggregation map, sorted by descending count and, for equal
    counts, by ascending lower-cased spelling: of two neighbours, either the
    first has the greater count, or the counts are equal and the lower-cased
    spelling of the first is smaller than or equal to that of the second. *)
Theorem output_order {U : Unicode} (W : Type)
    (DEEPL_CLIENT : option (str → str → str → W → deepl_reply * W))
    (requests : option (str → str → W → http_reply * W))
    (lang : str) (nt : bool) (text : str) (ign : ignore_dict)
    (disk : cache_file) (writable : bool) (w w' : W)
    (entries : list (str * nat * json)) (total considered : nat)
    (tr : list event) :
  main DEEPL_CLIENT requests lang nt text ign disk writable w
    = (Shown entries total considered, w', tr) →
  (∀ i a b, entries !! i = Some a → entries !! S i = Some b →
     (snd (fst b) < snd (fst a))%nat
     ∨ (snd (fst a) = snd (fst b)
        ∧ (str_lt (lower (fst (fst a))) (lower (fst (fst b))) = true
           ∨ lower (fst (fst a)) = lower (fst (fst b)))))
  ∧ Permutation (map shown_pair entries)
      (map item_pair (fst (fst (count_words text lang ign))))
  ∧ total = snd (fst (count_words text lang ign))
  ∧ considered = snd (count_words text lang ign).
Proof.
  intros Hrun.
  destruct (main_shown _ _ _ _ _ _ _ _ _ _ _ _ _ _ _ Hrun)
    as (raw & -> & Hraw & -> & ->).
  split; [|split; [|done]].
  - intros i a b Ha Hb. apply in_order_spelled.
    eapply sorted_adjacent; eauto using sort_entries_sorted.
  - unfold count_words. cbn [fst]. rewrite <- Hraw.
    apply Permutation_map, sort_entries_perm.
Qed.

Lemma output_order_witness :
  main (U:=latin1) failing_deepl offline (lit "en") true
    (lit "walk Run run RUN 12 walk walk Ab") no_ignore FileMissing true tt
  = (Shown [(lit "Run", 3%nat, JStr PLACEHOLDER);
            (lit "walk", 3%nat, JStr PLACEHOLDER);
            (lit "Ab", 1%nat, JStr PLACEHOLDER)] 8 7, tt, [EvLoadCache])
  ∧ ∀ i a b,
      [(lit "Run", 3%nat, JStr PLACEHOLDER);
       (lit "walk", 3%nat, JStr PLACEHOLDER);
       (lit "Ab", 1%nat, JStr PLACEHOLDER)] !! i = Some a →
      [(lit "Run", 3%nat, JStr PLACEHOLDER);
       (lit "walk", 3%nat, JStr PLACEHOLDER);
       (lit "Ab", 1%nat, JStr PLACEHOLDER)] !! S i = Some b →
      (snd (fst b) < snd (fst a))%nat
      ∨ (snd (fst a) = snd (fst b)
         ∧ (str_lt (lower (U:=latin1) (fst (fst a)))
                   (lower (U:=latin1) (fst (fst b))) = true
            ∨ lower (U:=latin1) (fst (fst a)) = lower (U:=latin1) (fst (fst b)))).
Proof.
  assert (Hrun : main (U:=latin1) failing_deepl offline (lit "en") true
                   (lit "walk Run run RUN 12 walk walk Ab") no_ignore
                   FileMissing true tt
                 = (Shown [(lit "Run", 3%nat, JStr PLACEHOLDER);
                           (lit "walk", 3%nat, JStr PLACEHOLDER);
                           (lit "Ab", 1%nat, JStr PLACEHOLDER)] 8 7,
                    tt, [EvLoadCache])) by (vm_compute; reflexivity).
  split; [exact Hrun|].
  exact (proj1 (output_order (U:=latin1) _ _ _ _ _ _ _ _ _ _ _ _ _ _ _ Hrun)).
Defined.

(** * Further properties of the code *)

#[local] Set Warnings "-clear-no-such-hyp".

(** ** Insertion-ordered dictionaries: keys stay distinct *)

Lemma od_get_None_keys {V} (d : odict V) k :
  od_get d k = None → ¬ In k (od_keys d).
Proof.
  intros Hg Hin. apply od_keys_get in Hin as [v Hv]. congruence.
Qed.

Lemma od_set_NoDup {V} (d : odict V) k v :
  NoDup (od_keys d) → NoDup (od_keys (od_set d k v)).
Proof.
  intros Hd. rewrite od_keys_set. destruct (od_get d k) eqn:Hg; [done|].
  apply NoDup_app. split; [done|]. split; [|apply NoDup_singleton].
  intros x Hx Hk. apply list_elem_of_singleton in Hk as ->.
  apply list_elem_of_In in Hx. by apply od_get_None_keys in Hg.
Qed.

Lemma od_get_In {V} (d : odict V) k v :
  NoDup (od_keys d) → In (k, v) d → od_get d k = Some v.
Proof.
  induction d as [|[k0 v0] d IH]; simpl; [done|].
  intros Hnd [[= -> ->]|Hin]; [by rewrite bool_decide_eq_true_2|].
  apply NoDup_cons in Hnd as [Hk0 Hnd].
  case_bool_decide as Hk; [|auto]. subst k0. exfalso. apply Hk0.
  apply list_elem_of_In. change k with (fst (k, v)). by apply in_map.
Qed.

(** ** The aggregation map *)

Section AggregationInvariants.
Context {U : Unicode}.
Variables (lang : str) (ign : ignore_dict).

Lemma count_step_NoDup words_data t :
  NoDup (od_keys words_data) →
  NoDup (od_keys (count_step lang ign words_data t)).
Proof.
  intros Hd. unfold count_step. destruct (skipped lang ign t); [done|].
  destruct (od_get words_data (normalize_word t lang)) as [[first n]|];
    by apply od_set_NoDup.
Qed.

Lemma fold_count_step_NoDup tokens : ∀ words_data,
  NoDup (od_keys words_data) →
  NoDup (od_keys (fold_left (count_step lang ign) tokens words_data)).
Proof.
  induction tokens as [|t tokens IH]; intros wd Hd; simpl; [done|].
  by apply IH, count_step_NoDup.
Qed.

Lemma count_tokens_NoDup tokens :
  NoDup (od_keys (count_tokens lang ign tokens)).
Proof. apply fold_count_step_NoDup. constructor. Qed.

Lemma skipped_step words_data t :
  skipped lang ign t = true → count_step lang ign words_data t = words_data.
Proof. intros Hs. unfold count_step. by rewrite Hs. Qed.

Lemma fold_skipped tokens : ∀ words_data,
  Forall (fun t => skipped lang ign t = true) tokens →
  fold_left (count_step lang ign) tokens words_data = words_data.
Proof.
  induction tokens as [|t tokens IH]; intros wd Hall; simpl; [done|].
  inversion Hall as [|? ? Ht Hrest]; subst.
  unfold count_step at 2. rewrite Ht. by apply IH.
Qed.

Lemma count_tokens_nil_iff tokens :
  count_tokens lang ign tokens = [] ↔
  Forall (fun t => skipped lang ign t = true) tokens.
Proof.
  split; [|apply fold_skipped].
  intros Hnil.
  pose proof (sum_counts_fold lang ign tokens []) as Hsum.
  fold (count_tokens lang ign tokens) in Hsum. rewrite Hnil in Hsum.
  unfold sum_counts in Hsum. simpl in Hsum.
  apply Forall_forall. intros t Ht. apply list_elem_of_In in Ht.
  destruct (skipped lang ign t) eqn:Hs; [done|]. exfalso.
  assert (Hin : In t (List.filter (fun t => negb (skipped lang ign t)) tokens)).
  { apply filter_In. by rewrite Hs. }
  destruct (List.filter _ tokens); [done|]. simpl in Hsum. lia.
Qed.

Lemma count_tokens_entry tokens k e :
  In (k, e) (count_tokens lang ign tokens) →
  ∃ more, List.filter (retained_as lang ign k) tokens = original e :: more
          ∧ count e = S (length more).
Proof.
  intros Hin. apply od_get_In in Hin; [|apply count_tokens_NoDup].
  rewrite (count_tokens_tracks lang ign tokens k) in Hin. unfold entry_of in Hin.
  destruct (List.filter (retained_as lang ign k) tokens) as [|first more]; [done|].
  injection Hin as <-. by exists more.
Qed.

Lemma count_tokens_entry_facts tokens k e :
  In (k, e) (count_tokens lang ign tokens) →
  normalize_word (original e) lang = k
  ∧ k ≠ []
  ∧ In (original e) tokens
  ∧ skipped lang ign (original e) = false
  ∧ contains_number (original e) = false
  ∧ (1 ≤ count e)%nat.
Proof.
  intros Hin.
  destruct (count_tokens_entry _ _ _ Hin) as (more & Hf & Hc).
  assert (Hhd : In (original e) (List.filter (retained_as lang ign k) tokens))
    by (rewrite Hf; by left).
  apply filter_In in Hhd as [Htok Hret]. unfold retained_as in Hret.
  apply andb_true_iff in Hret as [Hs Hk]. apply negb_true_iff in Hs.
  apply bool_decide_eq_true_1 in Hk.
  assert (Hd : contains_number (original e) = false ∧ k ≠ []).
  { unfold skipped in Hs. destruct (contains_number (original e)); [done|].
    rewrite Hk in Hs. split; [done|]. by case_bool_decide. }
  destruct Hd. repeat split; try done. lia.
Qed.

Lemma sum_counts_ge_length (d : odict entry) :
  Forall (fun kv => (1 ≤ count (snd kv))%nat) d → (length d ≤ sum_counts d)%nat.
Proof.
  unfold sum_counts, od_values.
  induction 1 as [|[k e] d He _ IH]; simpl in *; lia.
Qed.
End AggregationInvariants.

(** X1. The keys of the map returned by [count_words] are pairwise
    distinct, and every entry is consistent with its key: the stored
    spelling is a token of the text that no filter skipped, it holds no
    digit, its normalized form is the key, and the count is at least one. *)
Theorem count_words_entries_consistent {U : Unicode}
    (text lang : str) (ign : ignore_dict) :
  let words_data := fst (fst (count_words text lang ign)) in
  NoDup (od_keys words_data)
  ∧ ∀ k e, In (k, e) words_data →
      normalize_word (original e) lang = k
      ∧ k ≠ []
      ∧ In (original e) (tokenize text)
      ∧ skipped lang ign (original e) = false
      ∧ contains_number (original e) = false
      ∧ (1 ≤ count e)%nat.
Proof.
  unfold count_words. cbn [fst]. split; [apply count_tokens_NoDup|].
  intros k e Hin. by apply count_tokens_entry_facts.
Qed.

Lemma count_words_entries_consistent_witness :
  In (lit "run", Entry (lit "Run") 2)
     (fst (fst (count_words (U:=latin1) (lit "Run 42 run") (lit "en") no_ignore)))
  ∧ normalize_word (U:=latin1) (lit "Run") (lit "en") = lit "run".
Proof.
  assert (Hin : In (lit "run", Entry (lit "Run") 2)
                  (fst (fst (count_words (U:=latin1) (lit "Run 42 run")
                               (lit "en") no_ignore))))
    by (vm_compute; auto).
  split; [exact Hin|].
  exact (proj1 (proj2 (count_words_entries_consistent (U:=latin1)
                         (lit "Run 42 run") (lit "en") no_ignore) _ _ Hin)).
Defined.

(** X2. The number of unique words is at most the number of considered
    tokens, which is at most the number of tokens. *)
Theorem unique_words_at_most_considered {U : Unicode}
    (text lang : str) (ign : ignore_dict) :
  let '(words_data, total_tokens, considered_tokens) :=
    count_words text lang ign in
  (length words_data ≤ considered_tokens)%nat
  ∧ (considered_tokens ≤ total_tokens)%nat.
Proof.
  unfold count_words, count_tokens. cbv zeta.
  pose proof (sum_counts_fold lang ign (tokenize text) []) as Hsum.
  change (sum_counts []) with 0%nat in Hsum. simpl in Hsum.
  split; [|rewrite Hsum; apply List.filter_length_le].
  apply sum_counts_ge_length. apply Forall_forall. intros [k e] Hin.
  apply list_elem_of_In in Hin.
  apply (count_tokens_entry_facts lang ign (tokenize text)) in Hin.
  simpl. tauto.
Qed.

(** X3. A token that holds a digit contributes nothing: the map of a token
    list is the map of the list without that token. *)
Theorem digit_tokens_are_dropped {U : Unicode}
    (lang : str) (ign : ignore_dict) (t : str) (before after : list str) :
  contains_number t = true →
  count_tokens lang ign (before ++ t :: after)
  = count_tokens lang ign (before ++ after).
Proof.
  intros Hd. unfold count_tokens. rewrite !fold_left_app. simpl.
  rewrite skipped_step; [done|]. unfold skipped. by rewrite Hd.
Qed.

Lemma digit_tokens_are_dropped_witness :
  contains_number (U:=latin1) (lit "B2B") = true
  ∧ count_tokens (U:=latin1) (lit "en") no_ignore [lit "a"; lit "B2B"; lit "b"]
    = count_tokens (U:=latin1) (lit "en") no_ignore [lit "a"; lit "b"].
Proof.
  split; [reflexivity|].
  exact (digit_tokens_are_dropped (U:=latin1) (lit "en") no_ignore (lit "B2B")
           [lit "a"] [lit "b"] eq_refl).
Defined.

(** X4. The count kept for a key depends on the tokens only as a multiset:
    reordering the tokens changes neither which keys are present nor their
    counts (it can change the stored spelling and the order of the map). *)
Theorem counts_invariant_under_reordering {U : Unicode}
    (lang : str) (ign : ignore_dict) (tokens tokens' : list str) (k : str) :
  Permutation tokens tokens' →
  count <$> od_get (count_tokens lang ign tokens) k
  = count <$> od_get (count_tokens lang ign tokens') k.
Proof.
  intros Hp.
  rewrite (count_tokens_tracks lang ign tokens k),
    (count_tokens_tracks lang ign tokens' k).
  unfold entry_of.
  assert (Hf : Permutation (List.filter (retained_as lang ign k) tokens)
                 (List.filter (retained_as lang ign k) tokens')).
  { clear -Hp. induction Hp; simpl; repeat case_match; eauto using Permutation. }
  pose proof (Permutation_length Hf) as Hlen.
  destruct (List.filter _ tokens), (List.filter _ tokens'); simpl in *;
    try done. by injection Hlen as ->.
Qed.

Lemma counts_invariant_under_reordering_witness :
  count <$> od_get (count_tokens (U:=latin1) (lit "en") no_ignore
                      [lit "Run"; lit "go"; lit "run"]) (lit "run")
  = count <$> od_get (count_tokens (U:=latin1) (lit "en") no_ignore
                        [lit "run"; lit "Run"; lit "go"]) (lit "run").
Proof.
  apply (counts_invariant_under_reordering (U:=latin1)).
  apply Permutation_sym, (Permutation_cons_append [lit "Run"; lit "go"]).
Defined.

(** ** The tokenizer *)

Section TokenizerFacts.
Context {U : Unicode}.

Lemma tokens_from_concat text : ∀ cur,
  concat (tokens_from cur text) = rev cur ++ List.filter isword text.
Proof.
  induction text as [|c text IH]; intros cur; simpl.
  - destruct cur; simpl; by rewrite ?app_nil_r.
  - destruct (isword c).
    + rewrite IH. simpl. by rewrite <- app_assoc.
    + destruct cur; simpl; by rewrite IH.
Qed.

Lemma tokens_from_shape text : ∀ cur,
  forallb isword cur = true →
  Forall (fun t => t ≠ [] ∧ forallb isword t = true) (tokens_from cur text).
Proof.
  assert (Hrev : ∀ cur, forallb isword cur = true →
                        forallb isword (rev cur) = true).
  { intros cur Hc. apply forallb_forall. intros x Hx. apply in_rev in Hx.
    by eapply forallb_forall in Hc. }
  assert (Hne : ∀ (x : N) cur, rev (x :: cur) ≠ []).
  { intros x cur Hr. apply (f_equal (@length N)) in Hr.
    rewrite length_rev in Hr. done. }
  induction text as [|c text IH]; intros cur Hcur; simpl.
  - destruct cur; constructor; [|constructor]. split; [apply Hne|by apply Hrev].
  - destruct (isword c) eqn:Hc.
    + apply IH. simpl. by rewrite Hc.
    + destruct cur; [by apply IH|]. constructor; [|by apply IH].
      split; [apply Hne|by apply Hrev].
Qed.

Lemma tokens_from_split a : ∀ cur c b,
  isword c = false →
  tokens_from cur (a ++ c :: b) = tokens_from cur a ++ tokens_from [] b.
Proof.
  induction a as [|x a IH]; intros cur c b Hc; simpl.
  - rewrite Hc. by destruct cur.
  - destruct (isword x); [by apply IH|].
    destruct cur; simpl; by rewrite IH.
Qed.

Lemma tokens_from_word w : ∀ cur,
  forallb isword w = true →
  tokens_from cur w = match rev w ++ cur with [] => [] | run => [rev run] end.
Proof.
  induction w as [|c w IH]; intros cur Hw; simpl in *; [by destruct cur|].
  apply andb_true_iff in Hw as [Hc Hw]. rewrite Hc, IH by done.
  by rewrite <- app_assoc.
Qed.
End TokenizerFacts.

(** X5. Every token is a non-empty run of word characters, and the tokens
    put together are the text without its non-word characters: tokenizing
    drops the separators and nothing else. *)
Theorem tokenize_keeps_word_characters {U : Unicode} (text : str) :
  Forall (fun t => t ≠ [] ∧ forallb isword t = true) (tokenize text)
  ∧ concat (tokenize text) = List.filter isword text.
Proof.
  split; [by apply tokens_from_shape|]. apply (tokens_from_concat text []).
Qed.

(** X6. A character that is not a word character separates: the tokens of
    a text around it are the tokens of the left part followed by those of
    the right part. A non-empty run of word characters is one token. *)
Theorem tokenize_splits_at_separators {U : Unicode} :
  (∀ (a b : str) (c : N), isword c = false →
     tokenize (a ++ c :: b) = tokenize a ++ tokenize b)
  ∧ (∀ w : str, w ≠ [] → forallb isword w = true → tokenize w = [w]).
Proof.
  split.
  - intros a b c Hc. by apply tokens_from_split.
  - intros w Hne Hw. unfold tokenize. rewrite tokens_from_word by done.
    rewrite app_nil_r. destruct (rev w) eqn:Hr.
    + apply (f_equal (@rev N)) in Hr. by rewrite rev_involutive in Hr.
    + by rewrite <- Hr, rev_involutive.
Qed.

Lemma tokenize_splits_at_separators_witness :
  tokenize (U:=latin1) (lit "Der Hund" ++ 44 :: lit "bellt")
  = tokenize (U:=latin1) (lit "Der Hund") ++ tokenize (U:=latin1) (lit "bellt")
  ∧ tokenize (U:=latin1) (lit "bellt") = [lit "bellt"].
Proof.
  split.
  - exact (proj1 (tokenize_splits_at_separators (U:=latin1))
             (lit "Der Hund") (lit "bellt") 44 eq_refl).
  - apply (proj2 (tokenize_splits_at_separators (U:=latin1)));
      [vm_compute; discriminate | reflexivity].
Defined.

(** X7. A run ends with "nothing to show" exactly when every token of the
    text is skipped by a filter; then it has read no cache file, called no
    provider and left the network as it was. *)
Theorem nothing_to_show {U : Unicode} (W : Type)
    (DEEPL_CLIENT : option (str → str → str → W → deepl_reply * W))
    (requests : option (str → str → W → http_reply * W))
    (lang : str) (nt : bool) (text : str) (ign : ignore_dict)
    (disk : cache_file) (writable : bool) (w : W) :
  let run := main DEEPL_CLIENT requests lang nt text ign disk writable w in
  (Forall (fun t => skipped lang ign t = true) (tokenize text) →
   run = (NothingToShow, w, []))
  ∧ (fst (fst run) = NothingToShow →
     Forall (fun t => skipped lang ign t = true) (tokenize text)).
Proof.
  cbv zeta. unfold main, count_words. cbv zeta.
  destruct (count_tokens lang ign (tokenize text)) as [|kv wd] eqn:Hwd.
  - split; [done|]. intros _. by apply count_tokens_nil_iff.
  - split.
    + intros Hall. apply count_tokens_nil_iff in Hall. congruence.
    + destruct (nt || bool_decide (lang = lit "es")); [done|].
      cache_cases disk lang; try done;
        by destruct (translate_all _ _ lang (kv :: wd) _).
Qed.

Lemma nothing_to_show_witness :
  Forall (fun t => skipped (U:=latin1) (lit "de") ignore_der t = true)
    (tokenize (U:=latin1) (lit "der 2024, DER!"))
  ∧ main (U:=latin1) failing_deepl perro_mymemory (lit "de") false
      (lit "der 2024, DER!") ignore_der FileMissing true tt
    = (NothingToShow, tt, []).
Proof.
  assert (Hall : Forall (fun t => skipped (U:=latin1) (lit "de") ignore_der t = true)
                   (tokenize (U:=latin1) (lit "der 2024, DER!"))).
  { apply Forall_forall. intros t Ht. apply list_elem_of_In in Ht.
    vm_compute in Ht.
    repeat (destruct Ht as [<-|Ht]; [vm_compute; reflexivity|]). done. }
  split; [exact Hall|].
  exact (proj1 (nothing_to_show (U:=latin1) unit failing_deepl perro_mymemory
                  (lit "de") false (lit "der 2024, DER!") ignore_der
                  FileMissing true tt) Hall).
Defined.

(** ** The cache during a run *)

Section CacheFacts.
Context {U : Unicode}.
Variable W : Type.
Variable DEEPL_CLIENT : option (str → str → str → W → deepl_reply * W).
Variable requests : option (str → str → W → http_reply * W).

Abbreviation resolve' := (get_translation DEEPL_CLIENT requests).
Abbreviation loop := (translate_all DEEPL_CLIENT requests).

(** What a resolution does to the cache: nothing on a hit, one store of the
    value it returns on a miss. *)
Lemma resolve_cache k ow lang (s : run_state W) :
  lang_cache (snd (resolve' k ow lang s)) =
    match lang_cache s !! k with
    | Some _ => lang_cache s
    | None => <[k := fst (resolve' k ow lang s)]> (lang_cache s)
    end.
Proof.
  destruct (lang_cache s !! k) as [v|] eqn:Hk.
  - by rewrite (resolve_hit _ _ _ _ _ _ _ _ Hk).
  - rewrite (resolve_miss _ _ _ _ _ _ _ Hk). unfold chain_result.
    destruct (provider_run _ (world s)) as [o1 w1].
    destruct (usable o1); [done|].
    destruct (provider_run _ w1) as [o2 w2]. by destruct (usable o2).
Qed.

Lemma resolve_other k ow lang (s : run_state W) k' :
  k' ≠ k → lang_cache (snd (resolve' k ow lang s)) !! k' = lang_cache s !! k'.
Proof.
  intros Hne. rewrite resolve_cache. destruct (lang_cache s !! k); [done|].
  by rewrite lookup_insert_ne.
Qed.

Lemma resolve_keeps k ow lang (s : run_state W) k' v :
  lang_cache s !! k' = Some v →
  lang_cache (snd (resolve' k ow lang s)) !! k' = Some v.
Proof.
  intros Hv. destruct (decide (k' = k)) as [->|Hne].
  - by rewrite resolve_cache, Hv.
  - by rewrite resolve_other.
Qed.

Lemma loop_keeps lang items : ∀ (s : run_state W) k' v,
  lang_cache s !! k' = Some v →
  lang_cache (snd (loop lang items s)) !! k' = Some v.
Proof.
  induction items as [|[norm info] items IH]; intros s k' v Hv; simpl; [done|].
  unfold mbind, M_bind.
  pose proof (resolve_keeps norm (original info) lang s k' v Hv) as H1.
  destruct (resolve' norm (original info) lang s) as [m s1].
  specialize (IH s1 k' v H1).
  by destruct (loop lang items s1) as [tl s2].
Qed.

Lemma loop_other lang items : ∀ (s : run_state W) k',
  ¬ In k' (od_keys items) →
  lang_cache (snd (loop lang items s)) !! k' = lang_cache s !! k'.
Proof.
  induction items as [|[norm info] items IH]; intros s k' Hk; simpl; [done|].
  unfold mbind, M_bind. simpl in Hk.
  pose proof (resolve_other norm (original info) lang s k') as H1.
  destruct (resolve' norm (original info) lang s) as [m s1].
  specialize (IH s1 k'). destruct (loop lang items s1) as [tl s2].
  simpl in *. rewrite IH by tauto. apply H1. intros ->. tauto.
Qed.

(** After the loop every item's meaning is what the cache holds for its key. *)
Lemma loop_meanings lang items : ∀ s : run_state W,
  Forall2 (fun kv out =>
             fst out = (original (snd kv), count (snd kv))
             ∧ lang_cache (snd (loop lang items s)) !! fst kv = Some (snd out))
          items (fst (loop lang items s)).
Proof.
  induction items as [|[norm info] items IH]; intros s; simpl; [constructor|].
  unfold mbind, M_bind.
  pose proof (resolve_caches W DEEPL_CLIENT requests norm (original info) lang s)
    as Hc.
  destruct (resolve' norm (original info) lang s) as [m s1].
  specialize (IH s1).
  pose proof (loop_keeps lang items s1 norm m Hc) as Hk.
  destruct (loop lang items s1) as [tl s2]. simpl in *.
  constructor; [done|]. done.
Qed.

(** A loop over items that are all in the cache is answered from it. *)
Lemma loop_all_hits lang items : ∀ (s : run_state W) outs,
  Forall2 (fun kv out =>
             fst out = (original (snd kv), count (snd kv))
             ∧ lang_cache s !! fst kv = Some (snd out)) items outs →
  loop lang items s = (outs, s).
Proof.
  induction items as [|[norm info] items IH]; intros s outs Hall;
    inversion Hall as [|? [[o n] m] ? outs' [Ho Hm] Hrest]; subst; simpl; [done|].
  unfold mbind, M_bind. simpl in *.
  rewrite (resolve_hit _ _ _ _ _ _ _ _ Hm), (IH _ _ Hrest).
  injection Ho as -> ->. done.
Qed.

(** The providers answer with a trimmed string, or not at all. *)
Lemma deepl_answer text src tgt (w : W) :
  ∀ r, usable (fst (provider_run
                      (translate_with_deepl DEEPL_CLIENT text src tgt) w)) = Some r →
       ∃ t, r = strip t.
Proof.
  unfold provider_run, translate_with_deepl. intros r.
  destruct DEEPL_CLIENT as [f|]; [|done].
  unfold mbind, M_bind, call. cbn [world lang_cache trace].
  destruct (f text src tgt w) as [[|[t|]] w']; try done.
  cbn. destruct (strip t) eqn:Ht; [done|]. intros [= <-]. by exists t.
Qed.

Lemma mymemory_run text src tgt (w : W) :
  provider_run (translate_with_mymemory requests text src tgt) w =
    match requests with
    | None => (Return None, w)
    | Some get =>
        let '(reply, w') := get text (src ++ lit "|" ++ tgt) w in
        (mymemory_decode reply, w')
    end.
Proof.
  unfold provider_run, translate_with_mymemory.
  destruct requests as [f|]; [|done].
  unfold mbind, M_bind, call. cbn [world lang_cache trace].
  destruct (f text (src ++ lit "|" ++ tgt) w) as [[|js] w']; [done|].
  unfold mymemory_decode. destruct js as [| | | | |d]; try done.
  destruct (d !! lit "responseData") as [v|]; [destruct (truthy v)|];
    try (destruct v as [| | | | |data]; try done);
    repeat (case_match; try done);
    match goal with Hr : mret _ _ = _ |- _ =>
      unfold mret, M_ret in Hr; by injection Hr as <- <- end.
Qed.

Lemma mymemory_decode_answer reply r :
  usable (mymemory_decode reply) = Some r → ∃ t, r = strip t.
Proof.
  unfold mymemory_decode.
  repeat (case_match; try done); subst; simpl;
    (destruct (strip _) eqn:Ht; [done|]); intros [= <-]; eauto.
Qed.

Lemma mymemory_answer text src tgt (w : W) :
  ∀ r, usable (fst (provider_run
                      (translate_with_mymemory requests text src tgt) w)) = Some r →
       ∃ t, r = strip t.
Proof.
  intros r. rewrite mymemory_run. destruct requests as [f|]; [|done].
  destruct (f text (src ++ lit "|" ++ tgt) w) as [reply w']. simpl.
  apply mymemory_decode_answer.
Qed.

Lemma resolve_value k ow lang (s : run_state W) :
  lang_cache s !! k = None →
  ∃ r, fst (resolve' k ow lang s) = JStr r
       ∧ r ≠ [] ∧ (r = SENTINEL ∨ ∃ t, r = strip t).
Proof.
  intros Hk. rewrite (resolve_miss _ _ _ _ _ _ _ Hk). unfold chain_result.
  destruct (provider_run _ (world s)) as [o1 w1] eqn:H1.
  destruct (usable o1) as [r|] eqn:Hu1.
  { exists r. split; [done|]. split.
    - destruct o1 as [[[|]|]|]; simpl in Hu1; congruence.
    - right. apply (deepl_answer ow lang TARGET_LANG (world s)). by rewrite H1. }
  destruct (provider_run _ w1) as [o2 w2] eqn:H2.
  destruct (usable o2) as [r|] eqn:Hu2.
  { exists r. split; [done|]. split.
    - destruct o2 as [[[|]|]|]; simpl in Hu2; congruence.
    - right. apply (mymemory_answer ow lang TARGET_LANG w1). by rewrite H2. }
  exists SENTINEL. split; [done|]. split; [done|]. by left.
Qed.
End CacheFacts.

(** ** A translating run, step by step *)

Section TranslatingRun.
Context {U : Unicode}.
Variable W : Type.
Variable DEEPL_CLIENT : option (str → str → str → W → deepl_reply * W).
Variable requests : option (str → str → W → http_reply * W).

Abbreviation loop' := (translate_all DEEPL_CLIENT requests).

(** The shape of a run that translates and shows something. *)
Lemma main_translating lang nt text ign disk writable w entries total
    considered w' tr :
  main DEEPL_CLIENT requests lang nt text ign disk writable w
    = (Shown entries total considered, w', tr) →
  nt || bool_decide (lang = lit "es") = false →
  let words_data := count_tokens lang ign (tokenize text) in
  let r := loop' lang words_data
             (RunState w (loaded_slice disk lang) [EvLoadCache]) in
  entries = sort_entries (fst r)
  ∧ total = length (tokenize text)
  ∧ considered = sum_counts words_data
  ∧ w' = world (snd r)
  ∧ tr = trace (snd r)
         ++ save_cache writable
              (<[lang := JObj (lang_cache (snd r))]> (load_cache disk))
  ∧ words_data ≠ [].
Proof.
  unfold main, count_words, loaded_slice. cbv zeta. intros Hrun Hmode.
  rewrite Hmode in Hrun.
  destruct (count_tokens lang ign (tokenize text)) as [|kv wd] eqn:Hwd; [done|].
  revert Hrun. cache_cases disk lang; try done;
    destruct (translate_all _ _ lang (kv :: wd) _) as [raw s];
    intros [= <- <- <- <- <-]; rewrite ?insert_insert_eq; done.
Qed.

(** A run that translates from a well-formed cache file. *)
Lemma main_translate_from lang text ign disk writable w d :
  bool_decide (lang = lit "es") = false →
  count_tokens lang ign (tokenize text) ≠ [] →
  load_cache disk !! lang = Some (JObj d) →
  main DEEPL_CLIENT requests lang false text ign disk writable w =
    let words_data := count_tokens lang ign (tokenize text) in
    let r := loop' lang words_data (RunState w d [EvLoadCache]) in
    (Shown (sort_entries (fst r)) (length (tokenize text))
       (sum_counts words_data),
     world (snd r),
     trace (snd r)
     ++ save_cache writable
          (<[lang := JObj (lang_cache (snd r))]> (load_cache disk))).
Proof.
  intros Hmode Hne Hd. unfold main, count_words. cbv zeta.
  rewrite Hmode, Hd. simpl.
  destruct (count_tokens lang ign (tokenize text)) as [|kv wd]; [done|].
  rewrite Hd. by destruct (translate_all _ _ lang (kv :: wd) _).
Qed.

(** The calls of one resolution. *)
Lemma resolve_calls k ow lang (s : run_state W) :
  ∃ added,
    trace (snd (get_translation DEEPL_CLIENT requests k ow lang s))
      = trace s ++ added
    ∧ List.filter is_deepl_call added =
        (if bool_decide (lang_cache s !! k = None)
         then [EvDeepL ow lang TARGET_LANG] else [])
    ∧ (length (List.filter is_mymemory_call added)
       ≤ length (List.filter is_deepl_call added))%nat.
Proof.
  destruct (lang_cache s !! k) as [v|] eqn:Hk.
  - rewrite (resolve_hit _ _ _ _ _ _ _ _ Hk). exists []. by rewrite app_nil_r.
  - rewrite (resolve_miss _ _ _ _ _ _ _ Hk). unfold chain_result.
    destruct (provider_run _ (world s)) as [o1 w1].
    destruct (usable o1).
    { simpl. eexists. split; [reflexivity|]. simpl. split; [reflexivity|lia]. }
    destruct (provider_run _ w1) as [o2 w2].
    destruct (usable o2); simpl; eexists; (split; [reflexivity|]); simpl;
      (split; [reflexivity|lia]).
Qed.

Lemma loop_calls lang items : ∀ s : run_state W,
  NoDup (od_keys items) →
  ∃ added,
    trace (snd (loop' lang items s)) = trace s ++ added
    ∧ List.filter is_deepl_call added
      = expected_deepl_calls lang (lang_cache s) items
    ∧ (length (List.filter is_mymemory_call added)
       ≤ length (List.filter is_deepl_call added))%nat.
Proof.
  unfold expected_deepl_calls.
  induction items as [|[norm info] items IH]; intros s Hnd.
  - exists []. by rewrite app_nil_r.
  - change (od_keys ((norm, info) :: items)) with (norm :: od_keys items) in Hnd.
    apply NoDup_cons in Hnd as [Hnorm Hnd]. simpl. unfold mbind, M_bind.
    destruct (resolve_calls norm (original info) lang s) as (a1 & E1 & D1 & M1).
    assert (Hsame : ∀ kv, In kv items →
              lang_cache (snd (get_translation DEEPL_CLIENT requests norm
                                 (original info) lang s)) !! fst kv
              = lang_cache s !! fst kv).
    { intros kv Hkv. apply resolve_other. intros Heq. apply Hnorm.
      apply list_elem_of_In. rewrite <- Heq. unfold od_keys.
      by apply (in_map fst). }
    destruct (get_translation _ _ norm (original info) lang s) as [m s1].
    destruct (IH s1 Hnd) as (a2 & E2 & D2 & M2).
    destruct (loop' lang items s1) as [tl s2]. simpl in *.
    exists (a1 ++ a2). rewrite E2, E1, app_assoc. split; [done|].
    rewrite !List.filter_app, !length_app. split; [|lia].
    rewrite D1, D2.
    assert (Hf : List.filter (fun kv => bool_decide (lang_cache s1 !! fst kv = None)) items
                 = List.filter (fun kv => bool_decide (lang_cache s !! fst kv = None)) items).
    { apply filter_ext_in. intros kv Hkv. by rewrite Hsame. }
    rewrite Hf. by case_bool_decide.
Qed.

Lemma loop_world_offline lang items : ∀ s : run_state W,
  DEEPL_CLIENT = None → requests = None →
  world (snd (loop' lang items s)) = world s.
Proof.
  intros s HD HR. subst.
  revert s. induction items as [|[norm info] items IH]; intros s; simpl; [done|].
  unfold mbind, M_bind.
  assert (H1 : world (snd (get_translation None None norm (original info) lang s))
               = world s).
  { destruct (lang_cache s !! norm) as [v|] eqn:Hk.
    - by rewrite (resolve_hit _ _ _ _ _ _ _ _ Hk).
    - by rewrite (resolve_miss _ _ _ _ _ _ _ Hk). }
  destruct (get_translation None None norm (original info) lang s) as [m s1].
  specialize (IH s1). destruct (translate_all None None lang items s1).
  simpl in *. congruence.
Qed.
End TranslatingRun.

(** X8. The per-language cache only grows during a run: a resolution
    leaves every entry that is there as it is and can add an entry under
    its own key only, and so does the loop over the words, which touches the
    keys of the words only. *)
Theorem cache_is_append_only {U : Unicode} (W : Type)
    (DEEPL_CLIENT : option (str → str → str → W → deepl_reply * W))
    (requests : option (str → str → W → http_reply * W)) (lang : str) :
  (∀ k ow (s : run_state W) k' v,
     lang_cache s !! k' = Some v →
     lang_cache (snd (get_translation DEEPL_CLIENT requests k ow lang s)) !! k'
     = Some v)
  ∧ (∀ k ow (s : run_state W) k',
       k' ≠ k →
       lang_cache (snd (get_translation DEEPL_CLIENT requests k ow lang s)) !! k'
       = lang_cache s !! k')
  ∧ (∀ items (s : run_state W) k' v,
       lang_cache s !! k' = Some v →
       lang_cache (snd (translate_all DEEPL_CLIENT requests lang items s)) !! k'
       = Some v)
  ∧ (∀ items (s : run_state W) k',
       ¬ In k' (od_keys items) →
       lang_cache (snd (translate_all DEEPL_CLIENT requests lang items s)) !! k'
       = lang_cache s !! k').
Proof.
  repeat split.
  - intros. by apply resolve_keeps.
  - intros. by apply resolve_other.
  - intros. by apply loop_keeps.
  - intros. by apply loop_other.
Qed.

Lemma cache_is_append_only_witness :
  lang_cache hund_state !! lit "hund" = Some (JStr (lit "perro"))
  ∧ lang_cache (snd (get_translation (U:=latin1) failing_deepl offline
                       (lit "katze") (lit "Katze") (lit "de") hund_state))
      !! lit "hund" = Some (JStr (lit "perro")).
Proof.
  assert (Hh : lang_cache hund_state !! lit "hund" = Some (JStr (lit "perro")))
    by (vm_compute; reflexivity).
  split; [exact Hh|].
  exact (proj1 (cache_is_append_only (U:=latin1) unit failing_deepl offline
                  (lit "de")) (lit "katze") (lit "Katze") hund_state
           (lit "hund") _ Hh).
Defined.

(** X9. What a resolution stores for a key that was not in the cache is a
    non-empty string: the sentinel, or an answer of a provider with no white
    space at either end. *)
Theorem stored_translations_are_trimmed {U : Unicode} (W : Type)
    (DEEPL_CLIENT : option (str → str → str → W → deepl_reply * W))
    (requests : option (str → str → W → http_reply * W))
    (k ow lang : str) (s : run_state W) :
  lang_cache s !! k = None →
  ∃ r,
    fst (get_translation DEEPL_CLIENT requests k ow lang s) = JStr r
    ∧ lang_cache (snd (get_translation DEEPL_CLIENT requests k ow lang s)) !! k
      = Some (JStr r)
    ∧ r ≠ []
    ∧ (r = SENTINEL ∨ ends_ok r).
Proof.
  intros Hk.
  destruct (resolve_value W DEEPL_CLIENT requests k ow lang s Hk)
    as (r & Hr & Hne & Hshape).
  exists r. split; [done|]. split; [by rewrite resolve_caches, Hr|].
  split; [done|]. destruct Hshape as [->|[t ->]]; [by left|].
  right. apply strip_ends_ok.
Qed.

Lemma stored_translations_are_trimmed_witness :
  lang_cache fresh_state !! lit "hund" = None
  ∧ ∃ r,
      fst (get_translation (U:=latin1) failing_deepl perro_mymemory
             (lit "hund") (lit "Hund") (lit "de") fresh_state) = JStr r
      ∧ lang_cache (snd (get_translation (U:=latin1) failing_deepl perro_mymemory
                           (lit "hund") (lit "Hund") (lit "de") fresh_state))
          !! lit "hund" = Some (JStr r)
      ∧ r ≠ []
      ∧ (r = SENTINEL ∨ ends_ok (U:=latin1) r).
Proof.
  split; [reflexivity|].
  exact (stored_translations_are_trimmed (U:=latin1) unit failing_deepl
           perro_mymemory (lit "hund") (lit "Hund") (lit "de") fresh_state
           eq_refl).
Defined.

(** X10. In a run that translates and shows something, DeepL is called
    once for each word whose key is not in the loaded cache, in the order of
    the words, and for no other word; MyMemory is called at most as often as
    DeepL, and DeepL at most once per entry shown. *)
Theorem provider_calls_of_a_run {U : Unicode} (W : Type)
    (DEEPL_CLIENT : option (str → str → str → W → deepl_reply * W))
    (requests : option (str → str → W → http_reply * W))
    (lang : str) (nt : bool) (text : str) (ign : ignore_dict)
    (disk : cache_file) (writable : bool) (w w' : W)
    (entries : list (str * nat * json)) (total considered : nat)
    (tr : list event) :
  main DEEPL_CLIENT requests lang nt text ign disk writable w
    = (Shown entries total considered, w', tr) →
  nt || bool_decide (lang = lit "es") = false →
  List.filter is_deepl_call tr
  = expected_deepl_calls lang (loaded_slice disk lang)
      (fst (fst (count_words text lang ign)))
  ∧ (length (List.filter is_mymemory_call tr)
     ≤ length (List.filter is_deepl_call tr))%nat
  ∧ (length (List.filter is_deepl_call tr) ≤ length entries)%nat.
Proof.
  intros Hrun Hmode.
  destruct (main_translating W DEEPL_CLIENT requests _ _ _ _ _ _ _ _ _ _ _ _
              Hrun Hmode)
    as (-> & _ & _ & _ & -> & _).
  pose proof (translate_all_entries W DEEPL_CLIENT requests lang
                (count_tokens lang ign (tokenize text))
                (RunState w (loaded_slice disk lang) [EvLoadCache])) as Hent.
  destruct (loop_calls W DEEPL_CLIENT requests lang
              (count_tokens lang ign (tokenize text))
              (RunState w (loaded_slice disk lang) [EvLoadCache])
              (count_tokens_NoDup lang ign (tokenize text)))
    as (added & -> & Hd & Hm).
  assert (Hsave : ∀ c, List.filter is_deepl_call (save_cache writable c) = []
                       ∧ List.filter is_mymemory_call (save_cache writable c) = [])
    by (intros c; by destruct writable).
  cbn [trace]. rewrite !List.filter_app.
  rewrite (proj1 (Hsave _)), (proj2 (Hsave _)), !app_nil_r. simpl.
  unfold count_words. cbn [fst]. split; [done|]. split; [done|].
  rewrite Hd. unfold expected_deepl_calls. rewrite length_map.
  rewrite (Permutation_length (sort_entries_perm _)).
  apply (f_equal (@length _)) in Hent. rewrite !length_map in Hent.
  rewrite Hent. apply List.filter_length_le.
Qed.

Lemma provider_calls_of_a_run_witness :
  List.filter is_deepl_call
    (snd (main (U:=latin1) failing_deepl perro_mymemory (lit "de") false
            (lit "Der Hund") no_ignore hund_file true tt))
  = [EvDeepL (lit "Der") (lit "de") TARGET_LANG].
Proof.
  assert (Hrun : main (U:=latin1) failing_deepl perro_mymemory (lit "de") false
                   (lit "Der Hund") no_ignore hund_file true tt
                 = (Shown [(lit "Der", 1%nat, JStr (lit "perro"));
                           (lit "Hund", 1%nat, JStr (lit "perro"))] 2 2, tt,
                    snd (main (U:=latin1) failing_deepl perro_mymemory
                           (lit "de") false (lit "Der Hund") no_ignore
                           hund_file true tt)))
    by (vm_compute; reflexivity).
  rewrite (proj1 (provider_calls_of_a_run (U:=latin1) _ _ _ _ _ _ _ _ _ _ _ _
                    _ _ _ Hrun eq_refl)).
  vm_compute. reflexivity.
Defined.

(** X11. A run that translates, shows something and can write the cache
    file ends by writing it once, and what it writes extends what it
    loaded: the entries of the other languages are as loaded, the entries
    loaded for this language are kept, and every meaning shown is what the
    written file holds for the key of its word. *)
Theorem saved_cache_extends_loaded {U : Unicode} (W : Type)
    (DEEPL_CLIENT : option (str → str → str → W → deepl_reply * W))
    (requests : option (str → str → W → http_reply * W))
    (lang : str) (nt : bool) (text : str) (ign : ignore_dict)
    (disk : cache_file) (w w' : W)
    (entries : list (str * nat * json)) (total considered : nat)
    (tr : list event) :
  main DEEPL_CLIENT requests lang nt text ign disk true w
    = (Shown entries total considered, w', tr) →
  nt || bool_decide (lang = lit "es") = false →
  ∃ before saved slice,
    tr = before ++ [EvSaveCache saved]
    ∧ Forall (fun e => is_cache_write e = false ∨ ∃ k v, e = EvStore k v) before
    ∧ saved !! lang = Some (JObj slice)
    ∧ (∀ l, l ≠ lang → saved !! l = load_cache disk !! l)
    ∧ (∀ k v, loaded_slice disk lang !! k = Some v → slice !! k = Some v)
    ∧ (∀ x, In x entries →
         ∃ k, slice !! k = Some (snd x)
              ∧ In (k, Entry (fst (fst x)) (snd (fst x)))
                   (fst (fst (count_words text lang ign)))).
Proof.
  intros Hrun Hmode.
  destruct (main_translating W DEEPL_CLIENT requests _ _ _ _ _ _ _ _ _ _ _ _
              Hrun Hmode) as (-> & _ & _ & _ & -> & _).
  set (wd := count_tokens lang ign (tokenize text)).
  set (s0 := RunState w (loaded_slice disk lang) [EvLoadCache]).
  pose proof (loop_meanings W DEEPL_CLIENT requests lang wd s0) as Hm.
  pose proof (loop_keeps W DEEPL_CLIENT requests lang wd s0) as Hk.
  destruct (translate_all_trace W DEEPL_CLIENT requests lang wd s0)
    as (added & Htr & Hadd).
  destruct (translate_all DEEPL_CLIENT requests lang wd s0) as [raw s] eqn:Hl.
  cbn [fst snd] in *. eexists _, _, (lang_cache s).
  split; [reflexivity|]. split; [|split; [apply lookup_insert_eq|split; [|split]]].
  - rewrite Htr. apply Forall_app. split; [by repeat constructor|].
    eapply Forall_impl; [exact Hadd|]. intros e [He|(k & v & -> & _)].
    + left. by destruct e.
    + right. eauto.
  - intros l Hl'. by rewrite lookup_insert_ne.
  - intros k v Hv. by apply Hk.
  - intros x Hx. apply (Permutation_in _ (sort_entries_perm raw)) in Hx.
    unfold count_words. cbn [fst]. fold wd.
    clear -Hm Hx. induction Hm as [|[k e] out wd' raw' [Ho Hc] _ IH].
    + done.
    + destruct Hx as [->|Hx].
      * exists k. split; [done|]. left. destruct e. simpl in *.
        by rewrite Ho.
      * destruct (IH Hx) as (k' & ? & ?). exists k'. split; [done|]. by right.
Qed.

Lemma saved_cache_extends_loaded_witness :
  ∃ before saved slice,
    snd (main (U:=latin1) failing_deepl perro_mymemory (lit "de") false
           (lit "Der Hund") no_ignore hund_file true tt)
    = before ++ [EvSaveCache saved]
    ∧ saved !! lit "de" = Some (JObj slice)
    ∧ slice !! lit "hund" = Some (JStr (lit "perro")).
Proof.
  assert (Hrun : main (U:=latin1) failing_deepl perro_mymemory (lit "de") false
                   (lit "Der Hund") no_ignore hund_file true tt
                 = (Shown [(lit "Der", 1%nat, JStr (lit "perro"));
                           (lit "Hund", 1%nat, JStr (lit "perro"))] 2 2, tt,
                    snd (main (U:=latin1) failing_deepl perro_mymemory
                           (lit "de") false (lit "Der Hund") no_ignore
                           hund_file true tt)))
    by (vm_compute; reflexivity).
  destruct (saved_cache_extends_loaded (U:=latin1) _ _ _ _ _ _ _ _ _ _ _ _ _ _
              Hrun eq_refl)
    as (before & saved & slice & Htr & _ & Hs & _ & Hkeep & _).
  exists before, saved, slice. split; [exact Htr|]. split; [exact Hs|].
  apply Hkeep. vm_compute. reflexivity.
Defined.

(** X12. Running again on the cache file that a run has written shows the
    same entries and the same counts, whatever the providers now answer,
    without calling them: the only events are the reading of the file and
    the writing of the same content. *)
Theorem second_run_is_answered_from_the_cache {U : Unicode} (W : Type)
    (DEEPL_CLIENT DEEPL_CLIENT' : option (str → str → str → W → deepl_reply * W))
    (requests requests' : option (str → str → W → http_reply * W))
    (lang : str) (text : str) (ign : ignore_dict)
    (disk : cache_file) (writable' : bool) (w w' w2 : W)
    (entries : list (str * nat * json)) (total considered : nat)
    (before : list event) (saved : gmap (list N) json) :
  main DEEPL_CLIENT requests lang false text ign disk true w
    = (Shown entries total considered, w', before ++ [EvSaveCache saved]) →
  lang ≠ lit "es" →
  main DEEPL_CLIENT' requests' lang false text ign (FileJson (JObj saved))
    writable' w2
  = (Shown entries total considered, w2,
     EvLoadCache :: save_cache writable' saved).
Proof.
  intros Hrun Hlang.
  assert (Hmode : false || bool_decide (lang = lit "es") = false)
    by (by rewrite bool_decide_eq_false_2).
  destruct (main_translating W DEEPL_CLIENT requests _ _ _ _ _ _ _ _ _ _ _ _
              Hrun Hmode) as (-> & -> & -> & _ & Htr & Hne).
  set (wd := count_tokens lang ign (tokenize text)) in *.
  set (s0 := RunState w (loaded_slice disk lang) [EvLoadCache]) in *.
  pose proof (loop_meanings W DEEPL_CLIENT requests lang wd s0) as Hm.
  destruct (translate_all DEEPL_CLIENT requests lang wd s0) as [raw s].
  cbn [fst snd] in *. simpl in Htr. apply app_inj_tail in Htr as [_ Hsaved].
  injection Hsaved as Hsaved.
  assert (Hslice : saved !! lang = Some (JObj (lang_cache s)))
    by (rewrite Hsaved; apply lookup_insert_eq).
  rewrite (main_translate_from W DEEPL_CLIENT' requests' lang text ign
             (FileJson (JObj saved)) writable' w2 (lang_cache s));
    [|by rewrite bool_decide_eq_false_2|done|done].
  fold wd. cbv zeta.
  rewrite (loop_all_hits W DEEPL_CLIENT' requests' lang wd
             (RunState w2 (lang_cache s) [EvLoadCache]) raw Hm).
  cbn [fst snd world trace lang_cache load_cache].
  rewrite (insert_id saved lang _ Hslice). done.
Qed.

Lemma second_run_is_answered_from_the_cache_witness :
  ∃ saved,
    main (U:=latin1) failing_deepl offline (lit "de") false (lit "Der Hund")
      no_ignore (FileJson (JObj saved)) false tt
    = (Shown [(lit "Der", 1%nat, JStr (lit "perro"));
              (lit "Hund", 1%nat, JStr (lit "perro"))] 2 2, tt,
       [EvLoadCache; EvSaveWarning]).
Proof.
  assert (Hrun : ∃ before saved,
            main (U:=latin1) failing_deepl perro_mymemory (lit "de") false
              (lit "Der Hund") no_ignore hund_file true tt
            = (Shown [(lit "Der", 1%nat, JStr (lit "perro"));
                      (lit "Hund", 1%nat, JStr (lit "perro"))] 2 2, tt,
               before ++ [EvSaveCache saved])).
  { eexists [_; _; _; _], _. vm_compute. reflexivity. }
  destruct Hrun as (before & saved & Hrun). exists saved.
  apply (second_run_is_answered_from_the_cache (U:=latin1) unit
           failing_deepl failing_deepl perro_mymemory offline _ _ _ _ false
           _ _ tt _ _ _ _ _ Hrun).
  vm_compute. discriminate.
Defined.

(** ** The ignore file *)

Section IgnoreFacts.
Context {U : Unicode}.

Lemma strip_idempotent (s : str) : strip (strip s) = strip s.
Proof. apply ends_ok_strip, strip_ends_ok. Qed.

Lemma normalize_word_strip (w lang : str) :
  normalize_word (strip w) lang = normalize_word w lang.
Proof. unfold normalize_word. by rewrite strip_idempotent. Qed.

Lemma normalize_word_nonempty (w lang : str) :
  normalize_word w lang ≠ [] → strip w ≠ [].
Proof.
  unfold normalize_word. cbv zeta. case_bool_decide; [done|]. done.
Qed.

Lemma ignore_line_originals lang acc line x :
  x ∈ originals (ignore_line lang acc line) ↔
  x ∈ originals acc ∨ (strip line ≠ [] ∧ x = lower (strip line)).
Proof.
  unfold ignore_line. cbv zeta.
  case_bool_decide as Hw; [naive_solver|].
  case_bool_decide; simpl; rewrite elem_of_union, elem_of_singleton;
    naive_solver.
Qed.

Lemma ignore_line_normalized lang acc line x :
  x ∈ normalized (ignore_line lang acc line) ↔
  x ∈ normalized acc ∨ (x ≠ [] ∧ x = normalize_word line lang).
Proof.
  unfold ignore_line. cbv zeta. rewrite normalize_word_strip.
  case_bool_decide as Hw.
  { split; [auto|]. intros [?|[Hx ->]]; [done|].
    by apply normalize_word_nonempty in Hx. }
  case_bool_decide as Hn; simpl.
  - split; [auto|]. intros [?|[Hx ->]]; done.
  - rewrite elem_of_union, elem_of_singleton. naive_solver.
Qed.

Lemma ignore_lines_sets lang lines : ∀ acc x,
  (x ∈ originals (fold_left (ignore_line lang) lines acc) ↔
   x ∈ originals acc
   ∨ ∃ line, In line lines ∧ strip line ≠ [] ∧ x = lower (strip line))
  ∧ (x ∈ normalized (fold_left (ignore_line lang) lines acc) ↔
     x ∈ normalized acc
     ∨ ∃ line, In line lines ∧ x ≠ [] ∧ x = normalize_word line lang).
Proof.
  induction lines as [|l lines IH]; intros acc x; simpl.
  - split; (split; [auto|]); by intros [?|(line & [] & _)].
  - destruct (IH (ignore_line lang acc l) x) as [IHo IHn].
    rewrite IHo, IHn, ignore_line_originals, ignore_line_normalized.
    split; split.
    + intros [[?|[? ?]]|(line & ? & ? & ?)]; eauto 7.
    + intros [?|(line & [<-|?] & ? & ?)]; eauto 7.
    + intros [[?|[? ?]]|(line & ? & ? & ?)]; eauto 7.
    + intros [?|(line & [<-|?] & ? & ?)]; eauto 7.
Qed.

(** The result of [load_ignore_words], when it returns, is the fold of the
    loop body over the lines of the file it uses. *)
Lemma load_ignore_words_lines (fs : str → file) default_path exclude_path
    lang ign :
  load_ignore_words fs default_path exclude_path lang = Ok ign →
  ign = fold_left (ignore_line lang) (ignore_lines fs default_path exclude_path)
          (IgnoreDict ∅ ∅).
Proof.
  unfold load_ignore_words, ignore_lines. cbv beta zeta.
  destruct exclude_path as [[|c p]|];
    match goal with |- context [fs ?q] => destruct (fs q) eqn:Hf end;
    cbn [is_file ignore_files]; rewrite ?Hf; cbn [read_utf8]; try done;
    by intros [= <-].
Qed.

(** A token that matches a line of the file used is skipped. *)
Lemma listed_skipped (fs : str → file) default_path exclude_path lang ign
    line t :
  load_ignore_words fs default_path exclude_path lang = Ok ign →
  In line (ignore_lines fs default_path exclude_path) →
  (strip line ≠ [] ∧ lower t = lower (strip line))
  ∨ (normalize_word t lang ≠ []
     ∧ normalize_word t lang = normalize_word line lang) →
  skipped lang ign t = true.
Proof.
  intros Hload Hline Hmatch. apply load_ignore_words_lines in Hload as ->.
  set (ign := fold_left _ _ _).
  destruct (ignore_lines_sets lang (ignore_lines fs default_path exclude_path)
              (IgnoreDict ∅ ∅) (lower t)) as [Ho _].
  destruct (ignore_lines_sets lang (ignore_lines fs default_path exclude_path)
              (IgnoreDict ∅ ∅) (normalize_word t lang)) as [_ Hn].
  fold ign in Ho, Hn.
  apply skipped_by_ignore. destruct Hmatch as [[Hb Hl]|[Hne Heq]].
  - right. apply Ho. right. eauto.
  - left. apply Hn. right. eauto.
Qed.
End IgnoreFacts.

(** X13. The ignore file is chosen as follows. A path given with
    [--exclude] that is not a file ends the process with status 1, whatever
    is at the default place; a path given that is a file is the only one
    read, so the result does not depend on the default file; with no path
    (or an empty one) and no default file nothing is ignored. The process
    ends with status 1 exactly when the path examined holds a file that is
    not UTF-8, or was given and is not a file; an [OSError] escapes exactly
    when [is_file()] raises on the path examined or its file cannot be
    read. *)
Theorem ignore_file_policy {U : Unicode} (fs : str → file)
    (default_path : str) (lang : str) :
  (∀ path, path ≠ [] → fs path = NotAFile →
     load_ignore_words fs default_path (Some path) lang = SysExit 1)
  ∧ (∀ path fs' default_path', path ≠ [] → fs' path = fs path →
       load_ignore_words fs' default_path' (Some path) lang
       = load_ignore_words fs default_path (Some path) lang)
  ∧ (∀ exclude_path, exclude_path = None ∨ exclude_path = Some [] →
       fs default_path = NotAFile →
       load_ignore_words fs default_path exclude_path lang
       = Ok (IgnoreDict ∅ ∅))
  ∧ (∀ exclude_path code,
       load_ignore_words fs default_path exclude_path lang = SysExit code
       ↔ code = 1%nat
         ∧ (fs (ignore_path default_path exclude_path) = Undecodable
            ∨ (fs (ignore_path default_path exclude_path) = NotAFile
               ∧ ∃ c p, exclude_path = Some (c :: p))))
  ∧ (∀ exclude_path,
       load_ignore_words fs default_path exclude_path lang = Uncaught
       ↔ fs (ignore_path default_path exclude_path) = StatFails
         ∨ fs (ignore_path default_path exclude_path) = Unreadable).
Proof.
  split; [|split; [|split; [|split]]].
  - intros [|c p] Hne Hf; [done|]. unfold load_ignore_words. by rewrite Hf.
  - intros [|c p] fs' dp' Hne Hfs; [done|]. unfold load_ignore_words.
    simpl. by rewrite Hfs.
  - intros ep Hep Hf. unfold load_ignore_words.
    destruct Hep as [-> | ->]; by rewrite Hf.
  - intros ep code. unfold load_ignore_words, ignore_path.
    destruct ep as [[|c p]|]; simpl.
    + destruct (fs default_path) eqn:Hf; simpl; split;
        try (intros [= <-]); try (intros [-> [?|[? (? & ? & ?)]]]);
        try done; auto.
    + destruct (fs (c :: p)) eqn:Hf; simpl; split;
        try (intros [= <-]); try (intros [-> [?|[? ?]]]);
        try done; eauto 6.
    + destruct (fs default_path) eqn:Hf; simpl; split;
        try (intros [= <-]); try (intros [-> [?|[? (? & ? & ?)]]]);
        try done; auto.
  - intros ep. unfold load_ignore_words, ignore_path.
    destruct ep as [[|c p]|]; simpl;
      match goal with |- context [fs ?q] => destruct (fs q) eqn:Hf end;
      simpl; split; try done; try (intros [?|?]; done); auto.
Qed.

Lemma ignore_file_policy_witness :
  lit "nowhere.txt" ≠ []
  ∧ sample_fs (lit "nowhere.txt") = NotAFile
  ∧ load_ignore_words (U:=latin1) sample_fs (lit "ignore.txt")
      (Some (lit "nowhere.txt")) (lit "de") = SysExit 1.
Proof.
  assert (Hne : lit "nowhere.txt" ≠ []) by (vm_compute; discriminate).
  split; [exact Hne|]. split; [reflexivity|].
  exact (proj1 (ignore_file_policy (U:=latin1) sample_fs (lit "ignore.txt")
                  (lit "de")) (lit "nowhere.txt") Hne eq_refl).
Defined.

(** X14. When [load_ignore_words] returns, its two sets hold exactly what
    the lines of the file used give: [originals] the lower-cased trimmed
    lines that are not blank, [normalized] the non-empty normalized forms
    of the lines. *)
Theorem ignore_sets_are_the_lines {U : Unicode} (fs : str → file)
    (default_path : str) (exclude_path : option str) (lang : str)
    (ign : ignore_dict) :
  load_ignore_words fs default_path exclude_path lang = Ok ign →
  ∀ x : str,
    (x ∈ originals ign ↔
     ∃ line, In line (ignore_lines fs default_path exclude_path)
             ∧ strip line ≠ [] ∧ x = lower (strip line))
    ∧ (x ∈ normalized ign ↔
       ∃ line, In line (ignore_lines fs default_path exclude_path)
               ∧ x ≠ [] ∧ x = normalize_word line lang).
Proof.
  intros Hload x. apply load_ignore_words_lines in Hload as ->.
  destruct (ignore_lines_sets lang (ignore_lines fs default_path exclude_path)
              (IgnoreDict ∅ ∅) x) as [Ho Hn].
  rewrite Ho, Hn. simpl. split; split; auto.
  - intros [Hx|Hx]; [by apply not_elem_of_empty in Hx|done].
  - intros [Hx|Hx]; [by apply not_elem_of_empty in Hx|done].
Qed.

Lemma ignore_sets_are_the_lines_witness :
  ∃ ign,
    load_ignore_words (U:=latin1) sample_fs (lit "ignore.txt") None (lit "de")
    = Ok ign
    ∧ lit "hund" ∈ originals ign.
Proof.
  destruct (load_ignore_words (U:=latin1) sample_fs (lit "ignore.txt") None
              (lit "de")) as [ign|code|] eqn:Hload;
    [|by vm_compute in Hload..].
  exists ign. split; [reflexivity|].
  apply (ignore_sets_are_the_lines (U:=latin1) _ _ _ _ _ Hload (lit "hund")).
  exists (lit "  hund " ++ [NEWLINE]).
  split; [vm_compute; tauto|]. split; [vm_compute; discriminate|reflexivity].
Defined.

(** X15. A word of the ignore file is left out whatever its case: when
    [load_ignore_words] returns, a token whose lower-case form is that of a
    non-blank line of the file, or whose non-empty normalized form is that
    of a line, is skipped by the aggregation and gets no entry. *)
Theorem listed_words_are_skipped {U : Unicode} (fs : str → file)
    (default_path : str) (exclude_path : option str) (lang : str)
    (ign : ignore_dict) (line t : str) :
  load_ignore_words fs default_path exclude_path lang = Ok ign →
  In line (ignore_lines fs default_path exclude_path) →
  (strip line ≠ [] ∧ lower t = lower (strip line))
  ∨ (normalize_word t lang ≠ []
     ∧ normalize_word t lang = normalize_word line lang) →
  skipped lang ign t = true
  ∧ ∀ before after,
      count_tokens lang ign (before ++ t :: after)
      = count_tokens lang ign (before ++ after).
Proof.
  intros Hload Hline Hmatch.
  pose proof (listed_skipped fs _ _ _ _ _ _ Hload Hline Hmatch) as Hs.
  split; [done|]. intros before after. unfold count_tokens.
  rewrite !fold_left_app. simpl. by rewrite skipped_step.
Qed.

Lemma listed_words_are_skipped_witness :
  ∃ ign,
    load_ignore_words (U:=latin1) sample_fs (lit "ignore.txt") None (lit "de")
    = Ok ign
    ∧ skipped (U:=latin1) (lit "de") ign (lit "HUND") = true.
Proof.
  destruct (load_ignore_words (U:=latin1) sample_fs (lit "ignore.txt") None
              (lit "de")) as [ign|code|] eqn:Hload;
    [|by vm_compute in Hload..].
  exists ign. split; [reflexivity|].
  apply (listed_words_are_skipped (U:=latin1) _ _ _ _ _
           (lit "  hund " ++ [NEWLINE]) (lit "HUND") Hload).
  - vm_compute. tauto.
  - left. split; [vm_compute; discriminate|reflexivity].
Defined.

(** ** Blank strings *)

Section EmptyKeyFacts.
Context {U : Unicode}.

Lemma dropwhile_nil_iff {A} (p : A → bool) (s : list A) :
  dropwhile p s = [] ↔ Forall (fun c => p c = true) s.
Proof.
  induction s as [|c s IH]; simpl; [by split; [constructor|]|].
  destruct (p c) eqn:Hc.
  - rewrite IH. split; [by constructor|by inversion 1].
  - split; [done|]. inversion 1; congruence.
Qed.

Lemma strip_nil_iff (s : str) :
  strip s = [] ↔ Forall (fun c => isspace c = true) s.
Proof.
  unfold strip, rstrip, lstrip. split.
  - intros Hs. apply (f_equal (@rev N)) in Hs. rewrite rev_involutive in Hs.
    simpl in Hs. apply dropwhile_nil_iff in Hs.
    destruct (dropwhile isspace s) as [|c l] eqn:Hd;
      [by apply dropwhile_nil_iff|].
    apply dropwhile_head in Hd. rewrite Forall_forall in Hs.
    assert (Hc : isspace c = true)
      by (apply Hs, list_elem_of_In, in_rev; rewrite rev_involutive; by left).
    congruence.
  - intros Hs. apply dropwhile_nil_iff in Hs. by rewrite Hs.
Qed.

Lemma do_lower_nil_iff (s : str) :
  (∀ c, tolower_full c ≠ []) → ∀ before, do_lower before s = [] ↔ s = [].
Proof.
  intros Hne before. destruct s as [|c s]; simpl; [done|].
  split; [|done]. intros Happ. apply app_eq_nil in Happ as [Hc _].
  unfold lower_ucs4 in Hc. case_match; [done|]. by apply Hne in Hc.
Qed.

Lemma de_replace_nil_iff (s : str) : de_replace s = [] ↔ s = [].
Proof.
  rewrite de_replace_table. destruct s as [|c s]; simpl; [done|].
  split; [|done]. intros Happ. apply app_eq_nil in Happ as [Hc _].
  unfold de_subst in Hc. destruct (assoc de_table c) as [v|] eqn:Hv; [|done].
  apply de_table_values in Hv. subst v.
  repeat (destruct Hv as [Hv|Hv]; [by vm_compute in Hv|]). done.
Qed.
End EmptyKeyFacts.

(** ** Reading the text *)

Section ReadFacts.
Context {U : Unicode}.

Lemma literal_looking_short (item : str) :
  literal_looking item = false → Nat.ltb MAX_LITERAL_LEN (length item) = false.
Proof.
  unfold literal_looking, MAX_LITERAL_LEN. intros Hl.
  apply orb_false_iff in Hl as [_ Hl]. apply Nat.ltb_ge in Hl.
  apply Nat.ltb_ge. lia.
Qed.

(** The loop in closed form: it stops at the first item that fails, with
    what that item does, and otherwise adds the chunk of every item, in
    order. *)
Lemma read_items_closed (fs : str → file) inputs : ∀ text_chunks,
  read_items fs inputs text_chunks =
    match find (fun item => bad_item fs item || raising_item fs item) inputs with
    | Some item => if raising_item fs item then Uncaught else SysExit 1
    | None => Ok (text_chunks ++ map (chunk_of fs) inputs)
    end.
Proof.
  induction inputs as [|item rest IH]; intros acc; cbn [read_items find map].
  - by rewrite app_nil_r.
  - unfold bad_item, raising_item, chunk_of.
    destruct (literal_looking item) eqn:Hl.
    + destruct (Nat.ltb MAX_LITERAL_LEN (length item)); cbn [orb].
      * by rewrite Hl.
      * rewrite IH. by rewrite <- app_assoc.
    + rewrite (literal_looking_short _ Hl).
      destruct (fs item) eqn:Hf; cbn [is_file read_utf8 orb];
        rewrite ?Hl, ?Hf; try reflexivity;
        rewrite IH; by rewrite <- app_assoc.
Qed.

(** On items that all look literal the loop asks the file system nothing. *)
Lemma read_items_literal (g : str → file) inputs : ∀ text_chunks,
  forallb literal_looking inputs = true →
  read_items g inputs text_chunks =
    if existsb (fun item => Nat.ltb MAX_LITERAL_LEN (length item)) inputs
    then SysExit 1 else Ok (text_chunks ++ inputs).
Proof.
  induction inputs as [|item rest IH]; intros acc;
    cbn [forallb existsb read_items].
  - intros _. by rewrite app_nil_r.
  - intros Hlit. apply andb_true_iff in Hlit as [Hi Hr]. rewrite Hi.
    destruct (Nat.ltb MAX_LITERAL_LEN (length item)); cbn [orb]; [done|].
    rewrite (IH _ Hr). by rewrite <- app_assoc.
Qed.
End ReadFacts.

(** X16. [read_text_from_inputs] on a non-empty list of items takes the
    items in order and stops at the first one that fails; the items behind
    it are not looked at. An item fails with status 1 when it is
    literal-looking (it holds a space or has more than 200 characters) and
    longer than 800 characters, or is not literal-looking and names a file
    that is not UTF-8; it fails with an [OSError] that nothing catches when
    it is not literal-looking and [is_file()] raises on it or its file
    cannot be read. When no item fails the result is the chunks joined by
    "\n", one per item in order: the content of the file for an item that
    is not literal-looking and names a file, the item itself in every other
    case. The length test of line 147 never fires, and standard input is
    not looked at. *)
Theorem read_text_result {U : Unicode} (fs : str → file)
    (inputs : list str) (input : stdin) :
  inputs ≠ [] →
  read_text_from_inputs fs inputs input =
    match find (fun item => bad_item fs item || raising_item fs item) inputs with
    | Some item => if raising_item fs item then Uncaught else SysExit 1
    | None => Ok (join [NEWLINE] (map (chunk_of fs) inputs))
    end.
Proof.
  intros Hne. unfold read_text_from_inputs.
  destruct inputs as [|item rest]; [done|].
  rewrite read_items_closed. destruct (find _ _) as [bad|]; [|done].
  by destruct (raising_item fs bad).
Qed.

Lemma read_text_result_witness :
  [lit "ignore.txt"; lit "Der Hund"] ≠ []
  ∧ read_text_from_inputs (U:=latin1) sample_fs
      [lit "ignore.txt"; lit "Der Hund"] Tty
    = Ok (sample_ignore_text ++ [NEWLINE] ++ lit "Der Hund")
  ∧ read_text_from_inputs (U:=latin1) hostile_fs
      [lit "Hund"; lit "locked.txt"; lit "latin.txt"] Tty
    = Uncaught
  ∧ read_text_from_inputs (U:=latin1) hostile_fs
      [lit "latin.txt"; lit "toolong"] Tty
    = SysExit 1.
Proof.
  assert (Hne : [lit "ignore.txt"; lit "Der Hund"] ≠ []) by discriminate.
  split; [exact Hne|]. split; [|split].
  - rewrite (read_text_result (U:=latin1) sample_fs _ Tty Hne).
    vm_compute. reflexivity.
  - rewrite (read_text_result (U:=latin1) hostile_fs _ Tty); [|discriminate].
    vm_compute. reflexivity.
  - rewrite (read_text_result (U:=latin1) hostile_fs _ Tty); [|discriminate].
    vm_compute. reflexivity.
Defined.

(** X17. Items that hold a space or have more than 200 characters are
    never looked up as files: for a list of such items the result is the
    same on every file system, the items joined by "\n" when none has more
    than 800 characters. *)
Theorem literal_inputs_ignore_the_file_system {U : Unicode}
    (fs fs' : str → file) (inputs : list str) (input : stdin) :
  forallb literal_looking inputs = true →
  read_text_from_inputs fs inputs input = read_text_from_inputs fs' inputs input
  ∧ (inputs ≠ [] →
     forallb (fun item => Nat.leb (length item) MAX_LITERAL_LEN) inputs = true →
     read_text_from_inputs fs inputs input = Ok (join [NEWLINE] inputs)).
Proof.
  intros Hlit.
  assert (Hread : ∀ g : str → file,
            read_text_from_inputs g inputs input =
              match inputs with
              | [] => read_text_from_inputs fs [] input
              | _ =>
                  if existsb (fun item => Nat.ltb MAX_LITERAL_LEN (length item))
                       inputs
                  then SysExit 1 else Ok (join [NEWLINE] inputs)
              end).
  { intros g. destruct inputs as [|item rest]; [done|].
    unfold read_text_from_inputs.
    rewrite (read_items_literal g _ [] Hlit). by destruct (existsb _ _). }
  rewrite !Hread. split; [done|]. intros Hne Hlen.
  destruct inputs as [|item rest]; [done|].
  assert (Hex : existsb (fun item => Nat.ltb MAX_LITERAL_LEN (length item))
                  (item :: rest) = false).
  { clear -Hlen. induction (item :: rest) as [|x l IH]; [done|].
    cbn [forallb existsb] in *.
    apply andb_true_iff in Hlen as [Hx Hl]. rewrite (IH Hl), orb_false_r.
    apply Nat.leb_le in Hx. apply Nat.ltb_ge. done. }
  by rewrite Hex.
Qed.

Lemma literal_inputs_ignore_the_file_system_witness :
  forallb literal_looking [lit "Der Hund"; lit "ignore txt"] = true
  ∧ read_text_from_inputs (U:=latin1) sample_fs
      [lit "Der Hund"; lit "ignore txt"] Tty
    = read_text_from_inputs (U:=latin1) (fun _ => Undecodable)
        [lit "Der Hund"; lit "ignore txt"] Tty.
Proof.
  split; [reflexivity|].
  exact (proj1 (literal_inputs_ignore_the_file_system (U:=latin1) sample_fs
                  (fun _ => Undecodable) [lit "Der Hund"; lit "ignore txt"]
                  Tty eq_refl)).
Defined.

(** X18. With no input item the text is standard input as it is, white
    space at its ends included, whenever it holds a character that is not
    white space; when it holds white space only (or nothing) the process
    ends with status 1, as it does when standard input is a terminal. *)
Theorem read_text_from_stdin {U : Unicode} (fs : str → file) :
  (∀ data, Exists (fun c => isspace c = false) data →
     read_text_from_inputs fs [] (Piped data) = Ok data)
  ∧ (∀ data, Forall (fun c => isspace c = true) data →
       read_text_from_inputs fs [] (Piped data) = SysExit 1)
  ∧ read_text_from_inputs fs [] Tty = SysExit 1.
Proof.
  split; [|split; [|done]].
  - intros data Hex. simpl. case_bool_decide as Hs; [|done].
    apply strip_nil_iff in Hs. rewrite Forall_forall in Hs.
    apply Exists_exists in Hex as (c & Hc & Hsp). apply Hs in Hc. congruence.
  - intros data Hsp. simpl. apply strip_nil_iff in Hsp.
    by rewrite bool_decide_eq_true_2.
Qed.

Lemma read_text_from_stdin_witness :
  Exists (fun c => isspace (Unicode:=latin1) c = false) (lit " Der Hund ")
  ∧ read_text_from_inputs (U:=latin1) sample_fs [] (Piped (lit " Der Hund "))
    = Ok (lit " Der Hund ").
Proof.
  assert (Hex : Exists (fun c => isspace (Unicode:=latin1) c = false)
                  (lit " Der Hund "))
    by (apply Exists_cons_tl, Exists_cons_hd; reflexivity).
  split; [exact Hex|].
  exact (proj1 (read_text_from_stdin (U:=latin1) sample_fs) _ Hex).
Defined.

(** X19. From the command line to the table: when the text and the ignore
    file have been read and the run shows entries, no entry shown has the
    lower-case form of a non-blank line of the ignore file, nor the
    normalized form of a line, and no entry holds a digit. *)
Theorem ignored_words_are_not_shown {U : Unicode} (W : Type)
    (DEEPL_CLIENT : option (str → str → str → W → deepl_reply * W))
    (requests : option (str → str → W → http_reply * W))
    (fs : str → file) (default_path : str) (inputs : list str)
    (input : stdin) (exclude_path : option str)
    (lang : str) (nt : bool) (text : str) (ign : ignore_dict)
    (disk : cache_file) (writable : bool) (w w' : W)
    (entries : list (str * nat * json)) (total considered : nat)
    (tr : list event) :
  main_inputs fs default_path inputs input exclude_path lang = Ok (text, ign) →
  main DEEPL_CLIENT requests lang nt text ign disk writable w
    = (Shown entries total considered, w', tr) →
  ∀ x, In x entries →
    contains_number (fst (fst x)) = false
    ∧ ∀ line, In line (ignore_lines fs default_path exclude_path) →
        (strip line ≠ [] → lower (fst (fst x)) ≠ lower (strip line))
        ∧ normalize_word (fst (fst x)) lang ≠ normalize_word line lang.
Proof.
  intros Hin Hrun x Hx. unfold main_inputs in Hin.
  destruct (read_text_from_inputs fs inputs input) as [text'| |]; [|done..].
  destruct (load_ignore_words fs default_path exclude_path lang)
    as [ign'| |] eqn:Hload; [|done..].
  injection Hin as -> ->.
  destruct (main_shown _ _ _ _ _ _ _ _ _ _ _ _ _ _ _ Hrun)
    as (raw & -> & Hraw & _).
  apply (Permutation_in _ (sort_entries_perm raw)) in Hx.
  apply (in_map shown_pair) in Hx. rewrite Hraw in Hx.
  apply in_map_iff in Hx as ([k e] & Hpair & Hke).
  unfold shown_pair, item_pair in Hpair. simpl in Hpair.
  injection Hpair as Ho Hc.
  destruct (count_tokens_entry_facts _ _ _ _ _ Hke)
    as (Hk & Hkne & _ & Hs & Hd & _).
  rewrite <- Ho. split; [done|]. intros line Hline. split.
  - intros Hb Hl.
    rewrite (listed_skipped fs _ _ _ _ line (original e) Hload Hline) in Hs;
      [done|]. by left.
  - intros Hn.
    rewrite (listed_skipped fs _ _ _ _ line (original e) Hload Hline) in Hs;
      [done|]. right. split; [|done]. by rewrite Hk.
Qed.

Lemma ignored_words_are_not_shown_witness :
  ∃ ign,
    main_inputs (U:=latin1) sample_fs (lit "ignore.txt")
      [lit "Der Hund bellt"] Tty None (lit "de")
    = Ok (lit "Der Hund bellt", ign)
    ∧ main (U:=latin1) failing_deepl offline (lit "de") true
        (lit "Der Hund bellt") ign FileMissing true tt
      = (Shown [(lit "bellt", 1%nat, JStr PLACEHOLDER)] 3 1, tt, [EvLoadCache])
    ∧ contains_number (U:=latin1) (lit "bellt") = false.
Proof.
  destruct (main_inputs (U:=latin1) sample_fs (lit "ignore.txt")
              [lit "Der Hund bellt"] Tty None (lit "de"))
    as [[text ign]|code|] eqn:Hin; [|by vm_compute in Hin..].
  assert (Htext : text = lit "Der Hund bellt").
  { vm_compute in Hin. by injection Hin as <- _. }
  subst text. exists ign. split; [reflexivity|].
  assert (Hrun : main (U:=latin1) failing_deepl offline (lit "de") true
                   (lit "Der Hund bellt") ign FileMissing true tt
                 = (Shown [(lit "bellt", 1%nat, JStr PLACEHOLDER)] 3 1, tt,
                    [EvLoadCache])).
  { vm_compute in Hin. injection Hin as <-. vm_compute. reflexivity. }
  split; [exact Hrun|].
  apply (ignored_words_are_not_shown (U:=latin1) _ _ _ _ _ _ _ _ _ _ _ _ _ _ _
           _ _ _ _ _ Hin Hrun (lit "bellt", 1%nat, JStr PLACEHOLDER)).
  by left.
Defined.

(** ** Without providers *)

Section OfflineFacts.
Context {U : Unicode}.
Variable W : Type.

Lemma resolve_offline k ow lang (s : run_state W) :
  lang_cache s !! k = None →
  get_translation (W:=W) None None k ow lang s
  = (JStr SENTINEL,
     RunState (world s) (<[k := JStr SENTINEL]> (lang_cache s))
       (trace s ++ [EvDeepL ow lang TARGET_LANG;
                    EvMyMemory ow lang TARGET_LANG;
                    EvStore k (JStr SENTINEL)])).
Proof. intros Hk. by rewrite (resolve_miss _ _ _ _ _ _ _ Hk). Qed.

Lemma loop_offline_meanings (P : json → Prop) lang items :
  P (JStr SENTINEL) →
  ∀ s : run_state W,
    (∀ k v, lang_cache s !! k = Some v → P v) →
    Forall (fun x => P (snd x))
      (fst (translate_all (W:=W) None None lang items s)).
Proof.
  intros HX. induction items as [|[norm info] items IH]; intros s Hs; simpl;
    [constructor|].
  unfold mbind, M_bind.
  destruct (lang_cache s !! norm) as [v|] eqn:Hk.
  - rewrite (resolve_hit _ _ _ _ _ _ _ _ Hk). specialize (IH s Hs).
    destruct (translate_all None None lang items s). simpl in *.
    constructor; [by apply (Hs norm)|done].
  - rewrite (resolve_offline _ _ _ _ Hk).
    match goal with |- context [translate_all None None lang items ?s1] =>
      specialize (IH s1); destruct (translate_all None None lang items s1) end.
    simpl in *. constructor; [done|]. apply IH. intros k v.
    rewrite lookup_insert. case_decide; [by intros [= <-]|apply Hs].
Qed.
End OfflineFacts.

(** X20. Without an API key and without the [requests] module a run
    touches no network: it leaves the network as it was, and every meaning
    it shows is the sentinel "X" or a value that the loaded cache held. *)
Theorem run_without_providers {U : Unicode} (W : Type)
    (lang : str) (nt : bool) (text : str) (ign : ignore_dict)
    (disk : cache_file) (writable : bool) (w w' : W)
    (entries : list (str * nat * json)) (total considered : nat)
    (tr : list event) :
  main (W:=W) None None lang nt text ign disk writable w
    = (Shown entries total considered, w', tr) →
  nt || bool_decide (lang = lit "es") = false →
  w' = w
  ∧ Forall (fun x => snd x = JStr SENTINEL
                     ∨ ∃ k, loaded_slice disk lang !! k = Some (snd x)) entries.
Proof.
  intros Hrun Hmode.
  destruct (main_translating W None None _ _ _ _ _ _ _ _ _ _ _ _ Hrun Hmode)
    as (-> & _ & _ & -> & _ & _).
  split; [by rewrite loop_world_offline|].
  apply Forall_forall. intros x Hx. apply list_elem_of_In in Hx.
  apply (Permutation_in _ (sort_entries_perm _)) in Hx.
  pose proof (loop_offline_meanings W
                (fun v => v = JStr SENTINEL
                          ∨ ∃ k, loaded_slice disk lang !! k = Some v)
                lang (count_tokens lang ign (tokenize text)) (or_introl eq_refl)
                (RunState w (loaded_slice disk lang) [EvLoadCache])) as Hall.
  rewrite Forall_forall in Hall. apply Hall; [|by apply list_elem_of_In].
  intros k v Hv. right. by exists k.
Qed.

Lemma run_without_providers_witness :
  main (U:=latin1) (W:=unit) None None (lit "de") false (lit "Der Hund")
    no_ignore hund_file false tt
  = (Shown [(lit "Der", 1%nat, JStr SENTINEL);
            (lit "Hund", 1%nat, JStr (lit "perro"))] 2 2, tt,
     snd (main (U:=latin1) (W:=unit) None None (lit "de") false
            (lit "Der Hund") no_ignore hund_file false tt))
  ∧ Forall (fun x => snd x = JStr SENTINEL
                     ∨ ∃ k, loaded_slice hund_file (lit "de") !! k = Some (snd x))
      [(lit "Der", 1%nat, JStr SENTINEL);
       (lit "Hund", 1%nat, JStr (lit "perro"))].
Proof.
  assert (Hrun : main (U:=latin1) (W:=unit) None None (lit "de") false
                   (lit "Der Hund") no_ignore hund_file false tt
                 = (Shown [(lit "Der", 1%nat, JStr SENTINEL);
                           (lit "Hund", 1%nat, JStr (lit "perro"))] 2 2, tt,
                    snd (main (U:=latin1) (W:=unit) None None (lit "de") false
                           (lit "Der Hund") no_ignore hund_file false tt)))
    by (vm_compute; reflexivity).
  split; [exact Hrun|].
  exact (proj2 (run_without_providers (U:=latin1) unit _ _ _ _ _ _ _ _ _ _ _ _
                  Hrun eq_refl)).
Defined.

(** X21. Where lower-casing never deletes a character, [normalize_word]
    returns the empty key exactly for the words that are white space only
    (the empty word included), in every language. *)
Theorem empty_key_iff_blank {U : Unicode} (w lang : str) :
  (∀ c, tolower_full c ≠ []) →
  normalize_word w lang = [] ↔ Forall (fun c => isspace c = true) w.
Proof.
  intros Hne. rewrite <- strip_nil_iff. unfold normalize_word. cbv zeta.
  case_bool_decide as Hs; [done|]. split; [|done].
  unfold lower. rewrite (do_lower_nil_iff _ Hne).
  case_bool_decide; [|done]. fold (de_replace (strip w)).
  by rewrite de_replace_nil_iff.
Qed.

Lemma empty_key_iff_blank_witness :
  (∀ c, tolower_full (Unicode:=latin1) c ≠ [])
  ∧ normalize_word (U:=latin1) [SPACE; 9; NEWLINE] (lit "de") = [].
Proof.
  assert (Hne : ∀ c, tolower_full (Unicode:=latin1) c ≠ [])
    by apply latin1_normalize_laws.
  split; [exact Hne|].
  apply (empty_key_iff_blank (U:=latin1) _ _ Hne). by repeat constructor.
Defined.

(** ** The table *)

Lemma escape_len_not_esc c r : c ≠ ESC → escape_len (c :: r) = None.
Proof.
  intros Hc. destruct r as [|c1 r]; [done|]. simpl.
  by rewrite (proj2 (N.eqb_neq c ESC) Hc).
Qed.

Lemma strip_ansi_plain s t :
  ¬ In ESC s → strip_ansi_from 0 (s ++ t) = s ++ strip_ansi_from 0 t.
Proof.
  induction s as [|c s IH]; intros Hs; [done|].
  change ((c :: s) ++ t) with (c :: (s ++ t)).
  cbn [strip_ansi_from]. rewrite escape_len_not_esc by (intros ->; apply Hs; by left).
  simpl. rewrite IH; [done|]. intros Hin. apply Hs. by right.
Qed.

Lemma strip_ansi_plain_end s : ¬ In ESC s → strip_ansi s = s.
Proof.
  intros Hs. unfold strip_ansi. rewrite <- (app_nil_r s) at 1.
  rewrite strip_ansi_plain by done. simpl. apply app_nil_r.
Qed.

Lemma strip_ansi_colour t :
  strip_ansi_from 0 (BLUE ++ t) = strip_ansi_from 0 t
  ∧ strip_ansi_from 0 (YELLOW ++ t) = strip_ansi_from 0 t
  ∧ strip_ansi_from 0 (GREEN ++ t) = strip_ansi_from 0 t
  ∧ strip_ansi_from 0 (RESET ++ t) = strip_ansi_from 0 t.
Proof. repeat split; reflexivity. Qed.

Lemma repeat_space_plain n : ¬ In ESC (repeat SPACE n).
Proof. intros Hin. by apply repeat_spec in Hin. Qed.

Lemma ljust_plain width s : ¬ In ESC s → ¬ In ESC (ljust width s).
Proof.
  intros Hs Hin. unfold ljust in Hin. apply in_app_or in Hin as [?|Hin]; [done|].
  by apply repeat_space_plain in Hin.
Qed.

Lemma center_left_le (marg width : nat) :
  (marg / 2 + (if Nat.odd marg && Nat.odd width then 1 else 0) ≤ marg)%nat.
Proof.
  destruct (Nat.odd marg) eqn:Ho; cbn [andb].
  - apply Nat.odd_spec in Ho as [k ->].
    replace ((2 * k + 1) / 2)%nat with k
      by (apply (Nat.div_unique _ 2 k 1); lia).
    destruct (Nat.odd width); lia.
  - pose proof (Nat.Div0.div_le_upper_bound marg 2 marg). lia.
Qed.

Lemma center_plain width s : ¬ In ESC s → ¬ In ESC (center width s).
Proof.
  intros Hs Hin. unfold center in Hin.
  apply in_app_or in Hin as [Hin|Hin]; [by apply repeat_space_plain in Hin|].
  apply in_app_or in Hin as [?|Hin]; [done|].
  by apply repeat_space_plain in Hin.
Qed.

Lemma length_ljust width s : length (ljust width s) = Nat.max width (length s).
Proof. unfold ljust. rewrite length_app, repeat_length. lia. Qed.

Lemma length_center width s : length (center width s) = Nat.max width (length s).
Proof.
  unfold center. cbv zeta. rewrite !length_app, !repeat_length.
  pose proof (center_left_le (width - length s) width). lia.
Qed.

Lemma uint_digits_plain (d : Decimal.uint) :
  ¬ In ESC (lit (NilEmpty.string_of_uint d)).
Proof.
  induction d; simpl; [tauto|..]; unfold lit; fold lit;
    (intros [Hc|Hin]; [vm_compute in Hc; discriminate|done]).
Qed.

Lemma str_of_nat_plain n : ¬ In ESC (str_of_nat n).
Proof. apply uint_digits_plain. Qed.

Lemma list_max_ge (l : list nat) n : In n l → (n ≤ list_max l)%nat.
Proof.
  intros Hin. pose proof (proj1 (list_max_le l (list_max l)) (le_n _)) as Hall.
  rewrite List.Forall_forall in Hall. by apply Hall.
Qed.

Lemma column_widths (entries : list (str * nat * list N)) e :
  In e entries →
  (length (strip_ansi (fst (fst e))) ≤ max_word entries)%nat
  ∧ (length (str_of_nat (snd (fst e))) ≤ max_freq entries)%nat
  ∧ (length (strip_ansi (snd e)) ≤ max_mean entries)%nat.
Proof.
  intros Hin. unfold max_word, max_freq, max_mean.
  repeat split; apply list_max_ge; right.
  - by apply (in_map (fun e => length (strip_ansi (fst (fst e))))).
  - by apply (in_map (fun e => length (str_of_nat (snd (fst e))))).
  - by apply (in_map (fun e => length (strip_ansi (snd e)))).
Qed.

Lemma column_minima (entries : list (str * nat * list N)) :
  (7 ≤ max_word entries)%nat ∧ (10 ≤ max_freq entries)%nat
  ∧ (14 ≤ max_mean entries)%nat.
Proof.
  unfold max_word, max_freq, max_mean.
  repeat split; apply list_max_ge; by left.
Qed.

Lemma strip_ansi_row (a b c : str) :
  ¬ In ESC a → ¬ In ESC b → ¬ In ESC c →
  strip_ansi (lit " " ++ BLUE ++ a ++ RESET ++ lit " | "
              ++ YELLOW ++ b ++ RESET ++ lit " | " ++ GREEN ++ c ++ RESET)
  = lit " " ++ a ++ lit " | " ++ b ++ lit " | " ++ c.
Proof.
  intros Ha Hb Hc. unfold strip_ansi.
  assert (Hsp : ¬ In ESC (lit " ")) by (vm_compute; intuition discriminate).
  assert (Hbar : ¬ In ESC (lit " | ")) by (vm_compute; intuition discriminate).
  destruct (strip_ansi_colour (a ++ RESET ++ lit " | " ++ YELLOW ++ b ++ RESET
                               ++ lit " | " ++ GREEN ++ c ++ RESET))
    as (HB & _).
  destruct (strip_ansi_colour (lit " | " ++ YELLOW ++ b ++ RESET
                               ++ lit " | " ++ GREEN ++ c ++ RESET))
    as (_ & _ & _ & HR1).
  destruct (strip_ansi_colour (b ++ RESET ++ lit " | " ++ GREEN ++ c ++ RESET))
    as (_ & HY & _).
  destruct (strip_ansi_colour (lit " | " ++ GREEN ++ c ++ RESET))
    as (_ & _ & _ & HR2).
  destruct (strip_ansi_colour (c ++ RESET)) as (_ & _ & HG & _).
  destruct (strip_ansi_colour []) as (_ & _ & _ & HR3).
  rewrite app_nil_r in HR3.
  rewrite (strip_ansi_plain _ _ Hsp), HB, (strip_ansi_plain _ _ Ha), HR1,
    (strip_ansi_plain _ _ Hbar), HY, (strip_ansi_plain _ _ Hb), HR2,
    (strip_ansi_plain _ _ Hbar), HG, (strip_ansi_plain _ _ Hc), HR3.
  by rewrite app_nil_r.
Qed.

(** X22. In the table, a row whose word and meaning hold no escape
    character shows, once the colour codes are taken away, the word padded
    to the width of the word column, the count centred in its column and
    the meaning padded to its column, with " | " between them; every such
    row is one character shorter than the separator lines, so the rows are
    aligned with each other. *)
Theorem table_rows_are_aligned (entries : list (str * nat * list N))
    (e : str * nat * list N) :
  In e entries → ¬ In ESC (fst (fst e)) → ¬ In ESC (snd e) →
  strip_ansi (row_line entries e) = visible_row entries e
  ∧ length (ljust (max_word entries) (fst (fst e))) = max_word entries
  ∧ length (center (max_freq entries) (str_of_nat (snd (fst e))))
    = max_freq entries
  ∧ length (ljust (max_mean entries) (snd e)) = max_mean entries
  ∧ S (length (strip_ansi (row_line entries e))) = length (sep_line entries).
Proof.
  intros Hin Hw Hm. destruct (column_widths entries e Hin) as (Lw & Lf & Lm).
  rewrite (strip_ansi_plain_end _ Hw) in Lw.
  rewrite (strip_ansi_plain_end _ Hm) in Lm.
  assert (Hrow : strip_ansi (row_line entries e) = visible_row entries e).
  { destruct e as [[original count] meaning]. unfold row_line, visible_row.
    cbn [fst snd] in *. apply strip_ansi_row.
    - by apply ljust_plain.
    - apply center_plain, str_of_nat_plain.
    - by apply ljust_plain. }
  split; [done|]. rewrite Hrow. unfold visible_row, sep_line.
  rewrite !length_app, !length_ljust, !length_center, repeat_length.
  change (length (lit " ")) with 1%nat. change (length (lit " | ")) with 3%nat.
  repeat split; lia.
Qed.

Lemma table_rows_are_aligned_witness :
  strip_ansi (row_line sample_table (Massstaebe, 3%nat, lit "criterios"))
  = lit " " ++ Massstaebe ++ lit " |     3      | criterios     ".
Proof.
  rewrite (proj1 (table_rows_are_aligned sample_table
                    (Massstaebe, 3%nat, lit "criterios")
                    ltac:(right; left; reflexivity)
                    ltac:(vm_compute; intuition discriminate)
                    ltac:(vm_compute; intuition discriminate))).
  vm_compute. reflexivity.
Defined.

Lemma strip_ansi_header (n1 l r n3 : nat) :
  strip_ansi (lit " " ++ BLUE ++ lit "Palabra" ++ RESET ++ repeat SPACE n1
              ++ lit " | " ++ repeat SPACE l ++ YELLOW ++ lit "Frecuencia"
              ++ RESET ++ repeat SPACE r ++ lit " | " ++ GREEN
              ++ lit "Significado(s)" ++ RESET ++ repeat SPACE n3)
  = lit " " ++ lit "Palabra" ++ repeat SPACE n1 ++ lit " | "
    ++ repeat SPACE l ++ lit "Frecuencia" ++ repeat SPACE r ++ lit " | "
    ++ lit "Significado(s)" ++ repeat SPACE n3.
Proof.
  unfold strip_ansi.
  assert (Hlit : ∀ s, forallb (fun c => negb (c =? ESC)) (lit s) = true →
                      ¬ In ESC (lit s)).
  { intros s Hs Hin. rewrite forallb_forall in Hs. apply Hs in Hin.
    by rewrite N.eqb_refl in Hin. }
  repeat first
    [ rewrite (proj1 (strip_ansi_colour _))
    | rewrite (proj1 (proj2 (strip_ansi_colour _)))
    | rewrite (proj1 (proj2 (proj2 (strip_ansi_colour _))))
    | rewrite (proj2 (proj2 (proj2 (strip_ansi_colour _))))
    | rewrite (strip_ansi_plain (repeat SPACE _)) by apply repeat_space_plain
    | rewrite (strip_ansi_plain (lit _)) by (by apply Hlit) ].
  rewrite <- (app_nil_r (repeat SPACE n3)) at 1.
  rewrite (strip_ansi_plain (repeat SPACE _)) by apply repeat_space_plain.
  by rewrite app_nil_r.
Qed.

(** X23. The header of the table is padded by the length of the coloured
    strings, colour codes included. Without the codes its width is
    7 + max(7, w - 9) + max(10, f - 9) + max(14, m - 9) for the column widths
    w, f and m, which is never more than the width of a row, and is the
    width of a row only when the columns are as narrow as their titles: no
    word longer than 7 characters, no count longer than 10, no meaning
    longer than 14. *)
Theorem table_header_width (entries : list (str * nat * list N)) :
  let w := max_word entries in
  let f := max_freq entries in
  let m := max_mean entries in
  let header := length (strip_ansi (header_line entries)) in
  header = (7 + Nat.max 7 (w - 9) + Nat.max 10 (f - 9) + Nat.max 14 (m - 9))%nat
  ∧ (S header ≤ length (sep_line entries))%nat
  ∧ (S header = length (sep_line entries) ↔ w = 7%nat ∧ f = 10%nat ∧ m = 14%nat).
Proof.
  cbv zeta. destruct (column_minima entries) as (Hw & Hf & Hm).
  assert (Hlen : length (strip_ansi (header_line entries))
                 = (7 + Nat.max 7 (max_word entries - 9)
                    + Nat.max 10 (max_freq entries - 9)
                    + Nat.max 14 (max_mean entries - 9))%nat).
  { unfold header_line, ljust, center. cbv zeta.
    change (length (BLUE ++ lit "Palabra" ++ RESET)) with 16%nat.
    change (length (YELLOW ++ lit "Frecuencia" ++ RESET)) with 19%nat.
    change (length (GREEN ++ lit "Significado(s)" ++ RESET)) with 23%nat.
    pose proof (center_left_le (max_freq entries - 19) (max_freq entries)) as Hl.
    set (left := (_ / 2 + _)%nat) in *.
    rewrite <- !app_assoc. rewrite strip_ansi_header.
    rewrite !length_app, !repeat_length.
    change (length (lit " ")) with 1%nat. change (length (lit " | ")) with 3%nat.
    change (length (lit "Palabra")) with 7%nat.
    change (length (lit "Frecuencia")) with 10%nat.
    change (length (lit "Significado(s)")) with 14%nat. lia. }
  rewrite Hlen. unfold sep_line. rewrite repeat_length. repeat split; lia.
Qed.

Lemma table_header_width_witness :
  length (strip_ansi (header_line sample_table)) = 38%nat
  ∧ length (strip_ansi (row_line sample_table (lit "Hund", 12%nat, lit "perro")))
    = 39%nat.
Proof.
  split; [|vm_compute; reflexivity].
  rewrite (proj1 (table_header_width sample_table)). vm_compute. reflexivity.
Defined.


